(** * AI-Study-Buddy: the Groq streaming client (src/lib/groq.ts)

    A shallow embedding of [getChatCompletion] and [getCompletionSync]
    together with the parts of the JavaScript platform they call
    (strings of UTF-16 code units, [String.prototype.trim], [split],
    [TextDecoder], [JSON.parse]), and the properties of the streaming
    response assembler stated over that embedding. *)

From Stdlib Require Import String Ascii Strings.Byte NArith Bool QArith Lia List.
Import ListNotations.

Local Open Scope N_scope.
Local Open Scope list_scope.

(** ** The JavaScript platform *)

Module JS.

(** A JavaScript string is a sequence of UTF-16 code units. *)
Definition codeunit := N.
Definition jsstring := list codeunit.

(** Source literals.  [lit] reads an ASCII literal; [litq] reads one in
    which an apostrophe stands for the double quote U+0022. *)
Definition lit (s : string) : jsstring :=
  map N_of_ascii (list_ascii_of_string s).

Definition unquote (c : codeunit) : codeunit :=
  if c =? 0x27 then 0x22 else c.

Definition litq (s : string) : jsstring := map unquote (lit s).

Fixpoint str_eqb (a b : jsstring) : bool :=
  match a, b with
  | [], [] => true
  | x :: a', y :: b' => (x =? y) && str_eqb a' b'
  | _, _ => false
  end.

(** Truthiness of a string: the empty string is falsy. *)
Definition truthy_str (s : jsstring) : bool :=
  match s with [] => false | _ :: _ => true end.

(** [s.length]. *)
Definition str_length (s : jsstring) : N := N.of_nat (List.length s).

(** ECMAScript WhiteSpace and LineTerminator code points, the set that
    [String.prototype.trim] strips. *)
Definition isStrWhiteSpaceChar (c : codeunit) : bool :=
  (c =? 0x9) || (c =? 0xA) || (c =? 0xB) || (c =? 0xC) || (c =? 0xD)
  || (c =? 0x20) || (c =? 0xA0) || (c =? 0x1680)
  || ((0x2000 <=? c) && (c <=? 0x200A))
  || (c =? 0x2028) || (c =? 0x2029) || (c =? 0x202F) || (c =? 0x205F)
  || (c =? 0x3000) || (c =? 0xFEFF).

Fixpoint trimStart (s : jsstring) : jsstring :=
  match s with
  | [] => []
  | c :: s' => if isStrWhiteSpaceChar c then trimStart s' else s
  end.

Definition trimEnd (s : jsstring) : jsstring := rev (trimStart (rev s)).

Definition trim (s : jsstring) : jsstring := trimEnd (trimStart s).

(** [s.startsWith(p)], and what is left of [s] after [p]. *)
Fixpoint stripPrefix (p s : jsstring) : option jsstring :=
  match p, s with
  | [], _ => Some s
  | x :: p', y :: s' => if x =? y then stripPrefix p' s' else None
  | _ :: _, [] => None
  end.

(** [s.split(sep)] for a separator of one code unit: never empty. *)
Fixpoint split (sep : codeunit) (s : jsstring) : list jsstring :=
  match s with
  | [] => [[]]
  | c :: s' =>
      if c =? sep then [] :: split sep s'
      else match split sep s' with
           | [] => [[c]]
           | l :: ls => (c :: l) :: ls
           end
  end.

(** [Array.prototype.pop]: the array without its last element, and that
    element ([None] is [undefined], on the empty array). *)
Definition pop {A : Type} (l : list A) : list A * option A :=
  match rev l with
  | [] => ([], None)
  | x :: r => (rev r, Some x)
  end.

(** Matching one code unit against a lower-case ASCII letter of a
    pattern under the [i] flag (no [u] flag).  Canonicalize never maps
    a code unit of 128 or more to one below 128, so the only code units
    that match the letter are the letter and its ASCII capital. *)
Definition matches_ci (p c : codeunit) : bool :=
  (c =? p) || ((0x61 <=? p) && (p <=? 0x7A) && (c =? p - 0x20)).

Fixpoint startsWith_ci (p s : jsstring) : bool :=
  match p, s with
  | [], _ => true
  | x :: p', y :: s' => matches_ci x y && startsWith_ci p' s'
  | _ :: _, [] => false
  end.

(** *** [TextDecoder]

    [new TextDecoder().decode(bytes)] with the default options: the
    WHATWG UTF-8 decoder, not fatal, run on [bytes] alone (no
    [stream: true], so nothing is carried from one call to the next),
    with a leading byte order mark dropped from the output. *)

Record utf8_state := mk_utf8
  { code_point : N; bytes_seen : N; bytes_needed : N;
    lower_boundary : N; upper_boundary : N }.

Definition utf8_init : utf8_state := mk_utf8 0 0 0 0x80 0xBF.

(** A code point as UTF-16 code units. *)
Definition utf16_units (cp : N) : jsstring :=
  if cp <? 0x10000 then [cp]
  else [0xD800 + N.shiftr (cp - 0x10000) 10;
        0xDC00 + N.land (cp - 0x10000) 0x3FF].

(** The decoder on a byte when no continuation byte is awaited: what it
    emits and the state it moves to. *)
Definition utf8_lead (b : N) : jsstring * utf8_state :=
  if b <=? 0x7F then ([b], utf8_init)
  else if (0xC2 <=? b) && (b <=? 0xDF) then
    ([], mk_utf8 (N.land b 0x1F) 0 1 0x80 0xBF)
  else if (0xE0 <=? b) && (b <=? 0xEF) then
    ([], mk_utf8 (N.land b 0xF) 0 2
           (if b =? 0xE0 then 0xA0 else 0x80)
           (if b =? 0xED then 0x9F else 0xBF))
  else if (0xF0 <=? b) && (b <=? 0xF4) then
    ([], mk_utf8 (N.land b 0x7) 0 3
           (if b =? 0xF0 then 0x90 else 0x80)
           (if b =? 0xF4 then 0x8F else 0xBF))
  else ([0xFFFD], utf8_init).

Fixpoint utf8_decode (st : utf8_state) (bs : list N) : jsstring :=
  match bs with
  | [] => if bytes_needed st =? 0 then [] else [0xFFFD]
  | b :: bs' =>
      if bytes_needed st =? 0 then
        let (out, st') := utf8_lead b in out ++ utf8_decode st' bs'
      else if (lower_boundary st <=? b) && (b <=? upper_boundary st) then
        let cp := N.lor (N.shiftl (code_point st) 6) (N.land b 0x3F) in
        if bytes_seen st + 1 =? bytes_needed st then
          utf16_units cp ++ utf8_decode utf8_init bs'
        else
          utf8_decode (mk_utf8 cp (bytes_seen st + 1) (bytes_needed st)
                         0x80 0xBF) bs'
      else
        (* the byte is put back and read again from the initial state *)
        let (out, st') := utf8_lead b in
        0xFFFD :: out ++ utf8_decode st' bs'
  end.

Definition TextDecoder_decode (value : list byte) : jsstring :=
  match utf8_decode utf8_init (map Byte.to_N value) with
  | c :: out => if c =? 0xFEFF then out else c :: out
  | [] => []
  end.

(** *** [JSON.parse] *)

#[local] Set Warnings "-register-all".

Inductive json : Type :=
| JNull
| JBool (b : bool)
| JNumber (lexeme : jsstring)
| JString (s : jsstring)
| JArray (elements : list json)
| JObject (members : list (jsstring * json)).

Definition isJSONWhiteSpace (c : codeunit) : bool :=
  (c =? 0x20) || (c =? 0x9) || (c =? 0xA) || (c =? 0xD).

Fixpoint skip_ws (s : jsstring) : jsstring :=
  match s with
  | [] => []
  | c :: s' => if isJSONWhiteSpace c then skip_ws s' else s
  end.

Definition isDigit (c : codeunit) : bool := (0x30 <=? c) && (c <=? 0x39).

Definition hexDigit (c : codeunit) : option N :=
  if isDigit c then Some (c - 0x30)
  else if (0x41 <=? c) && (c <=? 0x46) then Some (c - 0x41 + 10)
  else if (0x61 <=? c) && (c <=? 0x66) then Some (c - 0x61 + 10)
  else None.

Definition hex4 (a b c d : codeunit) : option codeunit :=
  match hexDigit a, hexDigit b, hexDigit c, hexDigit d with
  | Some x, Some y, Some z, Some w => Some (((x * 16 + y) * 16 + z) * 16 + w)
  | _, _, _, _ => None
  end.

(** The character a single-letter escape stands for. *)
Definition escape (e : codeunit) : option codeunit :=
  if e =? 0x22 then Some 0x22          (* quote *)
  else if e =? 0x5C then Some 0x5C     (* backslash *)
  else if e =? 0x2F then Some 0x2F     (* slash *)
  else if e =? 0x62 then Some 0x8      (* b *)
  else if e =? 0x66 then Some 0xC      (* f *)
  else if e =? 0x6E then Some 0xA      (* n *)
  else if e =? 0x72 then Some 0xD      (* r *)
  else if e =? 0x74 then Some 0x9      (* t *)
  else None.

Definition push_char (c : codeunit) (r : option (jsstring * jsstring))
  : option (jsstring * jsstring) :=
  match r with
  | Some (chars, rest) => Some (c :: chars, rest)
  | None => None
  end.

(** The characters of a string literal after its opening quote, up to
    and including the closing quote. *)
Fixpoint parse_chars (s : jsstring) : option (jsstring * jsstring) :=
  match s with
  | [] => None
  | c :: s1 =>
      if c =? 0x22 then Some ([], s1)
      else if c =? 0x5C then
        match s1 with
        | [] => None
        | e :: s2 =>
            if e =? 0x75 then
              match s2 with
              | h1 :: h2 :: h3 :: h4 :: s3 =>
                  match hex4 h1 h2 h3 h4 with
                  | Some u => push_char u (parse_chars s3)
                  | None => None
                  end
              | _ => None
              end
            else
              match escape e with
              | Some x => push_char x (parse_chars s2)
              | None => None
              end
        end
      else if c <? 0x20 then None
      else push_char c (parse_chars s1)
  end.

Fixpoint span_digits (s : jsstring) : jsstring * jsstring :=
  match s with
  | [] => ([], [])
  | c :: s' =>
      if isDigit c then let (ds, r) := span_digits s' in (c :: ds, r)
      else ([], s)
  end.

(** One or more digits. *)
Definition digits1 (s : jsstring) : option (jsstring * jsstring) :=
  match span_digits s with
  | ([], _) => None
  | (ds, r) => Some (ds, r)
  end.

Definition parse_int (s : jsstring) : option (jsstring * jsstring) :=
  match s with
  | [] => None
  | d :: r =>
      if d =? 0x30 then Some ([d], r)
      else if isDigit d then let (ds, r') := span_digits r in Some (d :: ds, r')
      else None
  end.

Definition parse_frac (s : jsstring) : option (jsstring * jsstring) :=
  match s with
  | c :: r =>
      if c =? 0x2E then
        match digits1 r with
        | Some (ds, r') => Some (c :: ds, r')
        | None => None
        end
      else Some ([], s)
  | [] => Some ([], s)
  end.

Definition parse_exp (s : jsstring) : option (jsstring * jsstring) :=
  match s with
  | e :: r =>
      if (e =? 0x65) || (e =? 0x45) then
        let (sign, r1) :=
          match r with
          | g :: r0 => if (g =? 0x2B) || (g =? 0x2D) then ([g], r0) else ([], r)
          | [] => ([], r)
          end in
        match digits1 r1 with
        | Some (ds, r') => Some (e :: sign ++ ds, r')
        | None => None
        end
      else Some ([], s)
  | [] => Some ([], s)
  end.

(** A number literal; the value keeps its text rather than a double. *)
Definition parse_number (s : jsstring) : option (jsstring * jsstring) :=
  let (sign, s1) :=
    match s with
    | c :: r => if c =? 0x2D then ([c], r) else ([], s)
    | [] => ([], s)
    end in
  match parse_int s1 with
  | None => None
  | Some (i, s2) =>
      match parse_frac s2 with
      | None => None
      | Some (f, s3) =>
          match parse_exp s3 with
          | None => None
          | Some (e, s4) => Some (sign ++ i ++ f ++ e, s4)
          end
      end
  end.

Definition expect (p s : jsstring) (v : json) : option (json * jsstring) :=
  match stripPrefix p s with
  | Some rest => Some (v, rest)
  | None => None
  end.

(** One level of the grammar, given the parsers of what is nested in
    it: [value] for a value, [elements] for the elements of an array
    after its opening bracket, [members] for the members of an object
    after its opening brace. *)
Section Grammar.

Variable value : jsstring -> option (json * jsstring).
Variable elements : jsstring -> option (list json * jsstring).
Variable members : jsstring -> option (list (jsstring * json) * jsstring).

Definition value_step (s : jsstring) : option (json * jsstring) :=
  match skip_ws s with
  | [] => None
  | c :: r =>
      if c =? 0x7B then                       (* object *)
        match skip_ws r with
        | c' :: r' =>
            if c' =? 0x7D then Some (JObject [], r')
            else
              match members (c' :: r') with
              | Some (ms, rest) => Some (JObject ms, rest)
              | None => None
              end
        | [] => None
        end
      else if c =? 0x5B then                  (* array *)
        match skip_ws r with
        | c' :: r' =>
            if c' =? 0x5D then Some (JArray [], r')
            else
              match elements (c' :: r') with
              | Some (vs, rest) => Some (JArray vs, rest)
              | None => None
              end
        | [] => None
        end
      else if c =? 0x22 then                  (* string *)
        match parse_chars r with
        | Some (chars, rest) => Some (JString chars, rest)
        | None => None
        end
      else if c =? 0x74 then expect (lit "true") (c :: r) (JBool true)
      else if c =? 0x66 then expect (lit "false") (c :: r) (JBool false)
      else if c =? 0x6E then expect (lit "null") (c :: r) JNull
      else
        match parse_number (c :: r) with
        | Some (lexeme, rest) => Some (JNumber lexeme, rest)
        | None => None
        end
  end.

Definition elements_step (s : jsstring) : option (list json * jsstring) :=
  match value s with
  | None => None
  | Some (v, r) =>
      match skip_ws r with
      | c :: r' =>
          if c =? 0x2C then
            match elements r' with
            | Some (vs, rest) => Some (v :: vs, rest)
            | None => None
            end
          else if c =? 0x5D then Some ([v], r')
          else None
      | [] => None
      end
  end.

Definition members_step (s : jsstring)
  : option (list (jsstring * json) * jsstring) :=
  match skip_ws s with
  | q :: r0 =>
      if q =? 0x22 then
        match parse_chars r0 with
        | None => None
        | Some (key, r1) =>
            match skip_ws r1 with
            | colon :: r2 =>
                if colon =? 0x3A then
                  match value r2 with
                  | None => None
                  | Some (v, r3) =>
                      match skip_ws r3 with
                      | c :: r4 =>
                          if c =? 0x2C then
                            match members r4 with
                            | Some (ms, rest) => Some ((key, v) :: ms, rest)
                            | None => None
                            end
                          else if c =? 0x7D then Some ([(key, v)], r4)
                          else None
                      | [] => None
                      end
                  end
                else None
            | [] => None
            end
        end
      else None
  | [] => None
  end.

End Grammar.

Fixpoint parse_value (fuel : nat) (s : jsstring) {struct fuel}
  : option (json * jsstring) :=
  match fuel with
  | O => None
  | S fuel' => value_step (parse_elements fuel') (parse_members fuel') s
  end

with parse_elements (fuel : nat) (s : jsstring) {struct fuel}
  : option (list json * jsstring) :=
  match fuel with
  | O => None
  | S fuel' => elements_step (parse_value fuel') (parse_elements fuel') s
  end

with parse_members (fuel : nat) (s : jsstring) {struct fuel}
  : option (list (jsstring * json) * jsstring) :=
  match fuel with
  | O => None
  | S fuel' => members_step (parse_value fuel') (parse_members fuel') s
  end.

(** [JSON.parse(text)]: [None] is a thrown SyntaxError.  Each call of
    the three mutually recursive functions uses one unit of fuel; twice
    the length of the text is enough, and more changes nothing
    ([JSON_parse_fuel] below). *)
Definition JSON_fuel (text : jsstring) : nat := 2 * List.length text + 2.

Definition JSON_parse (text : jsstring) : option json :=
  match parse_value (JSON_fuel text) text with
  | Some (v, rest) =>
      match skip_ws rest with
      | [] => Some v
      | _ :: _ => None
      end
  | None => None
  end.

(** *** Reading properties of a parsed value

    A JavaScript value here is [option json], [None] being [undefined].
    A completion is normal or abrupt (a thrown TypeError). *)

Inductive completion (A : Type) : Type :=
| Normal (a : A)
| Throw.
Arguments Normal {A} a.
Arguments Throw {A}.

(** The last member with the key wins, as in [JSON.parse]. *)
Fixpoint lookup (key : jsstring) (members : list (jsstring * json))
  : option json :=
  match members with
  | [] => None
  | (k, v) :: rest =>
      match lookup key rest with
      | Some v' => Some v'
      | None => if str_eqb key k then Some v else None
      end
  end.

(** [v.key] for a key that names no property of the String, Number,
    Boolean, Array or Object prototypes (choices, delta, content and
    finish_reason are such keys). *)
Definition get (v : option json) (key : jsstring) : completion (option json) :=
  match v with
  | None | Some JNull => Throw
  | Some (JObject members) => Normal (lookup key members)
  | Some _ => Normal None
  end.

(** [v?.key], for the same keys. *)
Definition get_optional (v : option json) (key : jsstring)
  : completion (option json) :=
  match v with
  | None | Some JNull => Normal None
  | _ => get v key
  end.

(** [v[0]]. *)
Definition index0 (v : option json) : completion (option json) :=
  match v with
  | None | Some JNull => Throw
  | Some (JArray elements) => Normal (hd_error elements)
  | Some (JString s) =>
      Normal (match s with [] => None | c :: _ => Some (JString [c]) end)
  | Some (JObject members) => Normal (lookup (lit "0") members)
  | Some _ => Normal None
  end.

Definition bind {A B : Type} (c : completion A) (k : A -> completion B)
  : completion B :=
  match c with
  | Normal a => k a
  | Throw => Throw
  end.

End JS.

(** ** src/lib/groq.ts *)

Module Groq.
Import JS.

Definition API_URL : jsstring :=
  lit "https://api.groq.com/openai/v1/chat/completions".

Inductive Role := user | assistant | system.

Record ChatMessage := mkMessage { role : Role; content : jsstring }.

(** [CompletionOptions]: a field is [None] when the key is absent (a
    key present with the value [undefined] is not considered). *)
Record CompletionOptions := mkOptions
  { model : option jsstring;
    temperature : option Q;
    maxTokens : option N;
    systemPrompt : option jsstring }.

(** [Required<CompletionOptions>]. *)
Record Config := mkConfig
  { cfg_model : jsstring;
    cfg_temperature : Q;
    cfg_maxTokens : N;
    cfg_systemPrompt : jsstring }.

Definition defaultSystemPrompt : jsstring :=
  lit "You are an engaging and adaptive AI study buddy. Guidelines:" ++ [0xA]
  ++ lit "  - Be natural and conversational" ++ [0xA]
  ++ lit "  - Never show formatting instructions or meta-text" ++ [0xA]
  ++ litq "  - Never start responses with 'AI:' or similar prefixes" ++ [0xA]
  ++ lit "  - Don't show asterisks " ++ [0x28; 0x2A; 0x29]
  ++ lit " or formatting markers" ++ [0xA]
  ++ lit "  - Don't describe your actions in text" ++ [0xA]
  ++ lit "  - If the user is inactive, don't suggest follow-up messages" ++ [0xA]
  ++ lit "  - Keep responses focused on the user's questions and learning goals"
  ++ [0xA]
  ++ lit "  - Use emojis naturally but don't overdo it" ++ [0xA]
  ++ lit "  - Always respond directly to what the user says" ++ [0xA]
  ++ lit "  - Stay in character as a helpful study buddy".

Definition defaultOptions : Config :=
  mkConfig (lit "mixtral-8x7b-32768") (8 # 10)%Q 2048 defaultSystemPrompt.

Definition or_default {A : Type} (o : option A) (d : A) : A :=
  match o with Some a => a | None => d end.

(** [{ ...defaultOptions, ...options }]. *)
Definition spread (d : Config) (o : CompletionOptions) : Config :=
  mkConfig (or_default (model o) (cfg_model d))
           (or_default (temperature o) (cfg_temperature d))
           (or_default (maxTokens o) (cfg_maxTokens d))
           (or_default (systemPrompt o) (cfg_systemPrompt d)).

(** [/^(hi|hello|hey|greetings|sup)/i.test(s)]. *)
Definition greetingWords : list jsstring :=
  [lit "hi"; lit "hello"; lit "hey"; lit "greetings"; lit "sup"].

Definition greeting_test (s : jsstring) : bool :=
  existsb (fun w => startsWith_ci w s) greetingWords.

(** [messages.length === 1 && /.../i.test(messages[0].content)]. *)
Definition isGreeting (messages : list ChatMessage) : bool :=
  match messages with
  | [m] => greeting_test (content m)
  | _ => false
  end.

Definition greetingPrompt : jsstring := lit "Respond with a greeting.".

Definition systemMessage (config : Config) (messages : list ChatMessage)
  : ChatMessage :=
  mkMessage system
    (if isGreeting messages then greetingPrompt else cfg_systemPrompt config).

Definition clean (msg : ChatMessage) : ChatMessage :=
  mkMessage (role msg) (trim (content msg)).

Definition apiMessages (config : Config) (messages : list ChatMessage)
  : list ChatMessage :=
  map clean (systemMessage config messages :: messages).

(** The request handed to [fetch]. *)
Record Request := mkRequest
  { req_url : jsstring;
    req_authorization : jsstring;
    req_model : jsstring;
    req_messages : list ChatMessage;
    req_temperature : Q;
    req_max_tokens : N;
    req_stream : bool }.

(** The body of the POST: model, messages, temperature, max_tokens
    and [stream: true]. *)
Definition request (key : jsstring) (config : Config)
  (messages : list ChatMessage) : Request :=
  mkRequest API_URL (lit "Bearer " ++ key) (cfg_model config)
            (apiMessages config messages)
            (cfg_temperature config) (cfg_maxTokens config) true.

(** A body reader: the values its [read()] delivers, then either
    [done] or a rejection. *)
Inductive ReadEnd :=
| Done
| ReadRejects (reason : jsstring).

Record Reader := mkReader { reads : list (list byte); ending : ReadEnd }.

(** A response; [errorData] is [await response.json().catch(() => null)]
    and [body] is [response.body?.getReader()]. *)
Record Response := mkResponse
  { ok : bool;
    status : N;
    statusText : jsstring;
    errorData : option json;
    body : option Reader }.

Inductive FetchResult :=
| FetchResolves (response : Response)
| FetchRejects (reason : jsstring).

Record Env := mkEnv
  { GROQ_API_KEY : option jsstring;
    fetch : Request -> FetchResult }.

(** What the returned promise rejects with.  The source builds
    [Error] objects whose messages differ; the cases are kept apart by
    constructor:
    - [ApiKeyNotFound]: Groq API key not found ...
    - [RequestFailed]: Failed to get response from Groq: status
      statusText - errorData
    - [NoResponseBody]: No response body received from Groq API
    - [FetchRejected], [ReadRejected]: the rejection of [fetch] or of
      [reader.read()], rethrown as it is. *)
Inductive Error :=
| ApiKeyNotFound
| FetchRejected (reason : jsstring)
| RequestFailed (status : N) (statusText : jsstring) (errorData : option json)
| NoResponseBody
| ReadRejected (reason : jsstring).

Inductive Outcome :=
| Resolved (fullResponse : jsstring)
| Rejected (e : Error).

Definition DONE : jsstring := lit "data: [DONE]".

(** [trimmedLine.replace(/^data: /, '')]. *)
Definition replace_data_prefix (s : jsstring) : jsstring :=
  match stripPrefix (lit "data: ") s with
  | Some rest => rest
  | None => s
  end.

(** [data.choices[0]?.delta?.content]. *)
Definition delta_content (data : json) : completion (option json) :=
  bind (get (Some data) (lit "choices")) (fun choices =>
  bind (index0 choices) (fun choice =>
  bind (get_optional choice (lit "delta")) (fun delta =>
  get_optional delta (lit "content")))).

(** [data.choices[0].finish_reason === 'stop']. *)
Definition finish_reason_is_stop (data : json) : completion bool :=
  bind (get (Some data) (lit "choices")) (fun choices =>
  bind (index0 choices) (fun choice =>
  bind (get choice (lit "finish_reason")) (fun reason =>
  Normal (match reason with
          | Some (JString s) => str_eqb s (lit "stop")
          | _ => false
          end)))).

(** [v || ''] as the text that [accumulatedChunks += content] appends.
    [content] is declared a string; [undefined], [null], [false] and
    the empty string give the empty string, and [true] is appended as
    its name.  A number, an array or an object there would go through
    the rounding of the literal to a double and through ToPrimitive and
    ToString: such a payload is outside this model ([None]). *)
Definition content_or_empty (v : option json) : option jsstring :=
  match v with
  | None | Some JNull | Some (JBool false) => Some []
  | Some (JString s) => Some s
  | Some (JBool true) => Some (lit "true")
  | Some (JNumber _) | Some (JArray _) | Some (JObject _) => None
  end.

(** The variables of the read loop, and the state [sink] of the
    consumer behind [onChunk]. *)
Record Loop (S : Type) := mkLoop
  { buffer : jsstring;
    fullResponse : jsstring;
    accumulatedChunks : jsstring;
    sink : S }.
Arguments mkLoop {S}.
Arguments buffer {S}.
Arguments fullResponse {S}.
Arguments accumulatedChunks {S}.
Arguments sink {S}.

Section Stream.

(** The caller's callback, as the change it makes to the caller's
    state.  It is taken not to throw. *)
Context {S : Type} (onChunk : jsstring -> S -> S).

Definition accumulate (st : Loop S) (content : jsstring) : Loop S :=
  mkLoop (buffer st) (fullResponse st) (accumulatedChunks st ++ content)
         (sink st).

(** [onChunk(accumulatedChunks); fullResponse += accumulatedChunks;
    accumulatedChunks = '']; the [sleep(50)] before it only yields. *)
Definition flush (st : Loop S) : Loop S :=
  mkLoop (buffer st) (fullResponse st ++ accumulatedChunks st) []
         (onChunk (accumulatedChunks st) (sink st)).

(** The body of [for (const line of lines)].  [None]: the payload is
    outside the model (see [content_or_empty]). *)
Definition process_line (st : Loop S) (line : jsstring) : option (Loop S) :=
  let trimmedLine := trim line in
  if negb (truthy_str trimmedLine) || str_eqb trimmedLine DONE then Some st
  else
    let jsonStr := replace_data_prefix trimmedLine in
    match JSON_parse jsonStr with
    | None => Some st                         (* caught: SyntaxError *)
    | Some data =>
        match delta_content data with
        | Throw => Some st                    (* caught: TypeError *)
        | Normal v =>
            match content_or_empty v with
            | None => None
            | Some content =>
                if truthy_str content then
                  let st1 := accumulate st content in
                  if 4 <=? str_length (accumulatedChunks st1)
                  then Some (flush st1)
                  else
                    match finish_reason_is_stop data with
                    | Normal true => Some (flush st1)
                    | Normal false => Some st1
                    | Throw => Some st1       (* caught: TypeError *)
                    end
                else Some st
            end
        end
    end.

Fixpoint process_lines (st : Loop S) (lines : list jsstring)
  : option (Loop S) :=
  match lines with
  | [] => Some st
  | line :: rest =>
      match process_line st line with
      | Some st' => process_lines st' rest
      | None => None
      end
  end.

(** One turn of [while (true)] on a value that [read()] delivered. *)
Definition read_value (st : Loop S) (value : list byte) : option (Loop S) :=
  let chunk := TextDecoder_decode value in
  let buffer1 := buffer st ++ chunk in
  let (lines, last) := pop (split 0xA buffer1) in
  let buffer2 := match last with
                 | Some l => if truthy_str l then l else []
                 | None => []
                 end in
  process_lines
    (mkLoop buffer2 (fullResponse st) (accumulatedChunks st) (sink st)) lines.

Fixpoint read_loop (st : Loop S) (values : list (list byte))
  : option (Loop S) :=
  match values with
  | [] => Some st
  | value :: rest =>
      match read_value st value with
      | Some st' => read_loop st' rest
      | None => None
      end
  end.

(** After the loop: [if (accumulatedChunks) { onChunk(...); ... }
    return fullResponse]. *)
Definition finish (st : Loop S) : S * Outcome :=
  if truthy_str (accumulatedChunks st)
  then (onChunk (accumulatedChunks st) (sink st),
        Resolved (fullResponse st ++ accumulatedChunks st))
  else (sink st, Resolved (fullResponse st)).

Definition initial (s0 : S) : Loop S := mkLoop [] [] [] s0.

(** The loop on a reader, from its first [read()] to [done] or to the
    rejection, which leaves the loop and the function through
    [catch (error) { ...; throw error }]. *)
Definition consume (s0 : S) (reader : Reader) : option (S * Outcome) :=
  match read_loop (initial s0) (reads reader) with
  | None => None
  | Some st =>
      match ending reader with
      | Done => Some (finish st)
      | ReadRejects reason => Some (sink st, Rejected (ReadRejected reason))
      end
  end.

(** [getChatCompletion(messages, onChunk, options)] in the environment
    [env], the consumer starting in [s0]: the consumer's final state
    and how the promise settles. *)
Definition getChatCompletion (env : Env) (s0 : S)
  (messages : list ChatMessage) (options : CompletionOptions)
  : option (S * Outcome) :=
  match GROQ_API_KEY env with
  | None | Some [] => Some (s0, Rejected ApiKeyNotFound)
  | Some key =>
      let config := spread defaultOptions options in
      match fetch env (request key config messages) with
      | FetchRejects reason => Some (s0, Rejected (FetchRejected reason))
      | FetchResolves response =>
          if negb (ok response) then
            Some (s0, Rejected (RequestFailed (status response)
                                  (statusText response) (errorData response)))
          else
            match body response with
            | None => Some (s0, Rejected NoResponseBody)
            | Some reader => consume s0 reader
            end
      end
  end.

End Stream.

(** [getCompletionSync(messages, options)]: the callback appends to
    the local [result], which is what is returned. *)
Definition getCompletionSync (env : Env) (messages : list ChatMessage)
  (options : CompletionOptions) : option Outcome :=
  match getChatCompletion (fun chunk result => result ++ chunk) env []
          messages options with
  | None => None
  | Some (result, Resolved _) => Some (Resolved result)
  | Some (_, Rejected e) => Some (Rejected e)
  end.

(** The consumer that records the arguments [onChunk] is called with. *)
Definition record (chunk : jsstring) (calls : list jsstring) : list jsstring :=
  calls ++ [chunk].

End Groq.


(** ** Notions used in the statements *)

Import JS Groq.

Definition LF : codeunit := 0xA.

(** The complete lines of a text and the partial line after the last
    line feed: what [lines] and [buffer] hold after
    [lines = buffer.split('\n'); buffer = lines.pop() || '']. *)
Fixpoint cut (s : jsstring) : list jsstring * jsstring :=
  match s with
  | [] => ([], [])
  | c :: s' =>
      let (ls, r) := cut s' in
      if c =? LF then ([] :: ls, r)
      else match ls with
           | [] => ([], c :: r)
           | l :: ls' => ((c :: l) :: ls', r)
           end
  end.

(** Lines as they travel: each followed by a line feed. *)
Definition terminated (lines : list jsstring) : jsstring :=
  concat (map (fun l => l ++ [LF]) lines).

(** The text the reader's values decode to, call by call. *)
Definition decoded (values : list (list byte)) : jsstring :=
  concat (map TextDecoder_decode values).

(** What the transport side of the loop body extracts from a line: the
    fragment of text ([] when the line is skipped) and whether the
    record asks for a flush.  [None]: outside the model. *)
Record Fragment := mkFragment { frag_text : jsstring; frag_stop : bool }.

Definition skipped : Fragment := mkFragment [] false.

Definition decode_line (line : jsstring) : option Fragment :=
  let trimmedLine := trim line in
  if negb (truthy_str trimmedLine) || str_eqb trimmedLine DONE
  then Some skipped
  else
    match JSON_parse (replace_data_prefix trimmedLine) with
    | None => Some skipped
    | Some data =>
        match delta_content data with
        | Throw => Some skipped
        | Normal v =>
            match content_or_empty v with
            | None => None
            | Some text =>
                Some (mkFragment text
                        (match finish_reason_is_stop data with
                         | Normal b => b
                         | Throw => false
                         end))
            end
        end
    end.

(** What the assembling side does with a fragment. *)
Definition assemble {S : Type} (onChunk : jsstring -> S -> S)
  (st : Loop S) (f : Fragment) : Loop S :=
  if truthy_str (frag_text f) then
    let st1 := accumulate st (frag_text f) in
    if (4 <=? str_length (accumulatedChunks st1)) || frag_stop f
    then flush onChunk st1 else st1
  else st.

(** A line that is a well-formed DataRecord: it reaches [JSON.parse],
    parses, and its first choice's [delta.content] is a string (or is
    absent, which counts as the empty string). *)
Definition record_content (line : jsstring) : option jsstring :=
  let trimmedLine := trim line in
  if negb (truthy_str trimmedLine) || str_eqb trimmedLine DONE then None
  else
    match JSON_parse (replace_data_prefix trimmedLine) with
    | None => None
    | Some data =>
        match delta_content data with
        | Normal (Some (JString text)) => Some text
        | Normal None => Some []
        | _ => None
        end
    end.

Definition DataRecord (line content : jsstring) : Prop :=
  ~ In LF line /\ record_content line = Some content.

(** A malformed line: the [try] block throws on it. *)
Definition malformed (line : jsstring) : bool :=
  let trimmedLine := trim line in
  if negb (truthy_str trimmedLine) || str_eqb trimmedLine DONE then false
  else
    match JSON_parse (replace_data_prefix trimmedLine) with
    | None => true
    | Some data =>
        match delta_content data with
        | Throw => true
        | Normal _ => false
        end
    end.

(** The text assembled so far, flushed or pending. *)
Definition assembled {S : Type} (st : Loop S) : jsstring :=
  fullResponse st ++ accumulatedChunks st.

Definition with_buffer {S : Type} (b : jsstring) (st : Loop S) : Loop S :=
  mkLoop b (fullResponse st) (accumulatedChunks st) (sink st).

(** A consumer replayed on recorded calls. *)
Definition replay {S : Type} (onChunk : jsstring -> S -> S)
  (calls : list jsstring) (s0 : S) : S :=
  fold_left (fun s chunk => onChunk chunk s) calls s0.

(** The request goes through and the response hands out [reader]. *)
Definition delivers (env : Env) (messages : list ChatMessage)
  (options : CompletionOptions) (reader : Reader) : Prop :=
  exists key response,
    GROQ_API_KEY env = Some key /\ key <> [] /\
    fetch env (request key (spread defaultOptions options) messages)
      = FetchResolves response /\
    ok response = true /\ body response = Some reader.

(** Beginning with a word, letter case aside (ASCII letters). *)
Definition to_lower (c : codeunit) : codeunit :=
  if (0x41 <=? c) && (c <=? 0x5A) then c + 0x20 else c.

Definition begins_with_ci (word s : jsstring) : Prop :=
  exists head rest, s = head ++ rest /\ map to_lower head = word.

(** How the promise settles once the reads are over. *)
Definition settle {S : Type} (onChunk : jsstring -> S -> S)
  (e : ReadEnd) (st : Loop S) : S * Outcome :=
  match e with
  | Done => finish onChunk st
  | ReadRejects reason => (sink st, Rejected (ReadRejected reason))
  end.

(** A loop state of the recording consumer, seen by another consumer
    that received the same calls. *)
Definition project {S : Type} (onChunk : jsstring -> S -> S) (s0 : S)
  (st : Loop (list jsstring)) : Loop S :=
  mkLoop (buffer st) (fullResponse st) (accumulatedChunks st)
         (replay onChunk (sink st) s0).

Definition replayed {S : Type} (onChunk : jsstring -> S -> S) (s0 : S)
  (r : list jsstring * Outcome) : S * Outcome :=
  (replay onChunk (fst r) s0, snd r).

(** No line feed in a string: a line. *)
Definition noLF (s : jsstring) : bool := forallb (fun c => negb (c =? LF)) s.

(** Bytes below 0x80. *)
Definition ascii_bytes (bs : list byte) : Prop :=
  Forall (fun b => Byte.to_N b <= 0x7F) bs.

(** With the recording consumer, the calls made so far spell the
    flushed text: the pending text is in none of them. *)
Definition calls_spell_flushed (st : Loop (list jsstring)) : Prop :=
  concat (sink st) = fullResponse st.

(** The letters a to z. *)
Definition lower_letter (c : codeunit) : Prop := 0x61 <= c <= 0x7A.

(** A parser that, when it succeeds, leaves less than it was given. *)
Definition consumes {A : Type} (p : jsstring -> option (A * jsstring)) : Prop :=
  forall s a rest, p s = Some (a, rest) -> (List.length rest < List.length s)%nat.

(** *** Inputs of the worked scenarios *)

Definition byte_of (c : codeunit) : byte :=
  match Byte.of_N c with Some b => b | None => x00 end.

Definition bytes_of (s : jsstring) : list byte := map byte_of s.

Definition a_key : jsstring := lit "gsk_test".

Definition env_of (response : Response) : Env :=
  mkEnv (Some a_key) (fun _ => FetchResolves response).

Definition streaming (reader : Reader) : Env :=
  env_of (mkResponse true 200 (lit "OK") None (Some reader)).

Definition no_options : CompletionOptions := mkOptions None None None None.

Definition ask (text : string) : list ChatMessage := [mkMessage user (lit text)].

Definition record_line (text : string) : jsstring :=
  litq "data: {'choices':[{'delta':{'content':'" ++ lit text
  ++ litq "'},'index':0,'finish_reason':null}]}".

Definition line_Hi : jsstring :=
  litq "data: {'choices':[{'delta':{'content':'Hi'},'index':0,'finish_reason':null}]}".

Definition line_there : jsstring :=
  litq "data: {'choices':[{'delta':{'content':' there'},'index':0,'finish_reason':'stop'}]}".

Definition line_broken : jsstring :=
  litq "data: {'choices':[{'delta':{'content':'lost".

(** A record line whose content is the letter e-acute, in UTF-8 (the
    letter is the two bytes C3 A9), with no index and no finish reason,
    followed by its line feed. *)
Definition bytes_e_acute : list byte :=
  bytes_of (litq "data: {'choices':[{'delta':{'content':'")
  ++ [xc3; xa9] ++ bytes_of (litq "'}}]}" ++ [LF]).

Definition one_by_one {A : Type} (l : list A) : list (list A) :=
  map (fun x => [x]) l.

Definition reader_abcde : Reader :=
  mkReader
    [bytes_of (terminated [record_line "a"; record_line "b"; record_line "c";
                           record_line "d"; record_line "e"])] Done.

Definition reader_scenario : Reader :=
  mkReader [bytes_of (terminated [line_Hi; line_there; DONE])] Done.

Definition reader_cut_off : Reader :=
  mkReader [bytes_of (terminated [line_there; line_Hi])]
           (ReadRejects (lit "network error")).

Definition response_unauthorized : Response :=
  mkResponse false 401 (lit "Unauthorized") None None.

Definition response_without_body : Response :=
  mkResponse true 200 (lit "OK") None None.

Definition options_padded : CompletionOptions :=
  mkOptions None None None (Some (lit "  Answer briefly. ")).

(** ** Further notions: the stream *)

Definition CR : codeunit := 0xD.

(** Lines as they travel when each ends with carriage return and line
    feed. *)
Definition terminated_crlf (lines : list jsstring) : jsstring :=
  concat (map (fun l => l ++ [CR; LF]) lines).

(** A line from which no text is taken: blank, the sentinel, malformed,
    or a record without content. *)
Definition without_text (line : jsstring) : bool :=
  match decode_line line with
  | Some f => negb (truthy_str (frag_text f))
  | None => false
  end.

(** Neither the first nor the last code unit is white space. *)
Definition clean_edges (s : jsstring) : Prop :=
  match s with
  | c :: _ => isStrWhiteSpaceChar c = false
  | [] => True
  end
  /\ match rev s with
     | c :: _ => isStrWhiteSpaceChar c = false
     | [] => True
     end.

(** Fewer than four code units are pending. *)
Definition pending_is_short {S : Type} (st : Loop S) : Prop :=
  (List.length (accumulatedChunks st) < 4)%nat.

Definition is_prefix (a b : jsstring) : Prop := exists rest, b = a ++ rest.

Definition env_without_key (response : Response) : Env :=
  mkEnv None (fun _ => FetchResolves response).

Definition env_offline (reason : jsstring) : Env :=
  mkEnv (Some a_key) (fun _ => FetchRejects reason).

(** A later state of the recording loop keeps what an earlier one had:
    the calls made, the text flushed and the text assembled are
    extended, never changed. *)
Definition extends (st st' : Loop (list jsstring)) : Prop :=
  (exists calls, sink st' = sink st ++ calls)
  /\ is_prefix (fullResponse st) (fullResponse st')
  /\ is_prefix (assembled st) (assembled st').



(** ** The chat store (store/chatStore.ts), a caller of
    [getChatCompletion] *)

Module ChatStore.

(** [ChatMessage] of types/chat.ts, by the fields the store gives a
    message in [addMessage]. *)
Record ChatMessage := mkChatMessage
  { id : jsstring;
    role : Role;
    content : jsstring;
    timestamp : N }.

(** The data of [ChatState]; its four functions follow. *)
Record ChatState := mkState
  { messages : list ChatMessage;
    isLoading : bool }.

(** Line terminators: where [^] matches under the [m] flag, and what
    the dot does not match. *)
Definition isLineTerminator (c : codeunit) : bool :=
  (c =? 0xA) || (c =? 0xD) || (c =? 0x2028) || (c =? 0x2029).

(** [s.replace(/^AI:\s*/g, '')].  Without the [m] flag [^] matches at
    the start only, so there is at most one match: AI: and the white
    space after it. *)
Definition replace_AI (s : jsstring) : jsstring :=
  match stripPrefix (lit "AI:") s with
  | Some rest => trimStart rest
  | None => s
  end.

(** [s.replace(/^\*.*?\*\s*/gm, '')], read from left to right.  A match
    starts with an asterisk at the start of a line, runs to the next
    asterisk provided no line terminator comes before it, and takes the
    white space after that asterisk, line terminators included; the
    search for the next match resumes where the match ended.
    - [LineStart]: [^] matches here.
    - [Inside]: it does not.
    - [Opened held]: an asterisk at a line start has been read, and
      after it [held], free of asterisks and line terminators; all of
      it is kept if the line or the string ends first.
    - [Closed after_terminator]: the closing asterisk has been read and
      white space is being taken; the flag tells whether the last code
      unit taken is a line terminator, in which case [^] matches where
      the match ends. *)
Inductive Scan :=
| LineStart
| Inside
| Opened (held : jsstring)
| Closed (after_terminator : bool).

Definition asterisk : codeunit := 0x2A.

Fixpoint replace_emphasis (m : Scan) (s : jsstring) : jsstring :=
  match s with
  | [] =>
      match m with
      | Opened held => asterisk :: held
      | _ => []
      end
  | c :: s' =>
      match m with
      | LineStart =>
          if c =? asterisk then replace_emphasis (Opened []) s'
          else c :: replace_emphasis
                      (if isLineTerminator c then LineStart else Inside) s'
      | Inside =>
          c :: replace_emphasis
                 (if isLineTerminator c then LineStart else Inside) s'
      | Opened held =>
          if c =? asterisk then replace_emphasis (Closed false) s'
          else if isLineTerminator c
               then asterisk :: held ++ c :: replace_emphasis LineStart s'
               else replace_emphasis (Opened (held ++ [c])) s'
      | Closed after_terminator =>
          if isStrWhiteSpaceChar c
          then replace_emphasis (Closed (isLineTerminator c)) s'
          else if after_terminator && (c =? asterisk)
               then replace_emphasis (Opened []) s'
               else c :: replace_emphasis Inside s'
      end
  end.

(** [s.replace(/\n{3,}/g, '\n\n')]; [run] counts the line feeds read
    and not yet written. *)
Definition write_run (run : nat) : jsstring :=
  if Nat.leb 3 run then [LF; LF] else repeat LF run.

Fixpoint replace_newlines (run : nat) (s : jsstring) : jsstring :=
  match s with
  | [] => write_run run
  | c :: s' =>
      if c =? LF then replace_newlines (S run) s'
      else write_run run ++ c :: replace_newlines O s'
  end.

(** The content [updateMessage] stores. *)
Definition cleanContent (content : jsstring) : jsstring :=
  trim (replace_newlines O (replace_emphasis LineStart (replace_AI content))).

(** [cleanChunk] in the callback of [sendMessage]. *)
Definition cleanChunk (chunk : jsstring) : jsstring :=
  trim (replace_emphasis LineStart (replace_AI chunk)).

Definition role_eqb (a b : Role) : bool :=
  match a, b with
  | user, user | assistant, assistant | system, system => true
  | _, _ => false
  end.

(** [addMessage(role, content)], with the values [crypto.randomUUID()]
    and [Date.now()] return at this call: the id, and the store. *)
Definition addMessage (uuid : jsstring) (now : N) (r : Role)
  (text : jsstring) (st : ChatState) : jsstring * ChatState :=
  (uuid,
   mkState (messages st ++ [mkChatMessage uuid r text now]) (isLoading st)).

Definition updated (target text : jsstring) (msg : ChatMessage)
  : ChatMessage :=
  if str_eqb (id msg) target && role_eqb (role msg) assistant
  then mkChatMessage (id msg) (role msg) (cleanContent text) (timestamp msg)
  else msg.

(** [updateMessage(id, content)]. *)
Definition updateMessage (target text : jsstring) (st : ChatState)
  : ChatState :=
  mkState (map (updated target text) (messages st)) (isLoading st).

(** [clearMessages()]. *)
Definition clearMessages (st : ChatState) : ChatState :=
  mkState [] (isLoading st).

(** What [crypto.randomUUID()] and [Date.now()] return at the first,
    second, ... call of [addMessage] during one [sendMessage]. *)
Record Entropy := mkEntropy { randomUUID : nat -> jsstring; Date_now : nat -> N }.

(** The messages handed to [getChatCompletion]. *)
Definition groqMessages (assistantMessageId : jsstring)
  (currentState : ChatState) : list Groq.ChatMessage :=
  filter (fun msg => truthy_str (Groq.content msg))
    (map (fun msg => mkMessage (role msg) (trim (content msg)))
       (filter (fun msg => negb (str_eqb (id msg) assistantMessageId))
          (messages currentState))).

(** The callback: its state is the local [responseText] and the
    store. *)
Definition onChunk (assistantMessageId : jsstring) (chunk : jsstring)
  (s : jsstring * ChatState) : jsstring * ChatState :=
  let responseText := fst s ++ cleanChunk chunk in
  (responseText, updateMessage assistantMessageId responseText (snd s)).

Definition apology : jsstring :=
  lit "Sorry, I encountered an error. Please try again.".

(** [sendMessage(content)], nothing else touching the store meanwhile.
    [set] replaces the store's state by a new object, so
    [currentState], the object [get()] returned before the two
    [addMessage], keeps the messages of that moment; the functions
    called through it work on the store. *)
Definition sendMessage (env : Env) (rnd : Entropy) (text : jsstring)
  (st : ChatState) : option ChatState :=
  let currentState := mkState (messages st) true in
  let (_, st2) :=
    addMessage (randomUUID rnd 0) (Date_now rnd 0) user text currentState in
  let (assistantMessageId, st3) :=
    addMessage (randomUUID rnd 1) (Date_now rnd 1) assistant [] st2 in
  match getChatCompletion (onChunk assistantMessageId) env ([], st3)
          (groqMessages assistantMessageId currentState)
          (mkOptions None None None None) with
  | None => None
  | Some ((_, st4), Resolved _) => Some (mkState (messages st4) false)
  | Some ((_, st4), Rejected _) =>
      let (_, st5) :=
        addMessage (randomUUID rnd 2) (Date_now rnd 2) assistant apology st4 in
      Some (mkState (messages st5) false)
  end.

End ChatStore.

(** ** Further notions: the chat store *)

(** No three line feeds in a row. *)
Definition has_no_blank_block (s : jsstring) : Prop :=
  forall a b, s <> a ++ [LF; LF; LF] ++ b.

(** The same, decided from left to right; [n] line feeds come just
    before [s]. *)
Fixpoint lf_runs_ok (n : nat) (s : jsstring) : bool :=
  match s with
  | [] => true
  | c :: s' =>
      if c =? LF then Nat.ltb n 2 && lf_runs_ok (S n) s'
      else lf_runs_ok O s'
  end.

(** The messages of the store once the two messages of a
    [sendMessage] are added, and once the calls of the callback are
    through. *)
Definition sent_messages (rnd : ChatStore.Entropy) (text : jsstring)
  (st : ChatStore.ChatState) : list ChatStore.ChatMessage :=
  ChatStore.messages st
  ++ [ChatStore.mkChatMessage (ChatStore.randomUUID rnd 0) user text
        (ChatStore.Date_now rnd 0);
      ChatStore.mkChatMessage (ChatStore.randomUUID rnd 1) assistant []
        (ChatStore.Date_now rnd 1)].

Definition shown_messages (rnd : ChatStore.Entropy) (text : jsstring)
  (st : ChatStore.ChatState) (calls : list jsstring)
  : list ChatStore.ChatMessage :=
  match calls with
  | [] => sent_messages rnd text st
  | _ :: _ =>
      map (ChatStore.updated (ChatStore.randomUUID rnd 1)
             (concat (map ChatStore.cleanChunk calls)))
        (sent_messages rnd text st)
  end.

Definition apology_message (rnd : ChatStore.Entropy) : ChatStore.ChatMessage :=
  ChatStore.mkChatMessage (ChatStore.randomUUID rnd 2) assistant
    ChatStore.apology (ChatStore.Date_now rnd 2).

(** *** Inputs of the store's scenarios *)

Definition some_entropy : ChatStore.Entropy :=
  ChatStore.mkEntropy
    (fun n => lit "id-" ++ [0x30 + N.of_nat n])
    (fun n => 1700000000000 + N.of_nat n).

Definition earlier_store : ChatStore.ChatState :=
  ChatStore.mkState
    [ChatStore.mkChatMessage (lit "m1") user (lit "What is a monad?") 1;
     ChatStore.mkChatMessage (lit "m2") assistant (lit "A monoid.") 2]
    false.

Definition user_message (rnd : ChatStore.Entropy) (text : jsstring)
  : ChatStore.ChatMessage :=
  ChatStore.mkChatMessage (ChatStore.randomUUID rnd 0) user text
    (ChatStore.Date_now rnd 0).

Definition reply_message (rnd : ChatStore.Entropy) (text : jsstring)
  : ChatStore.ChatMessage :=
  ChatStore.mkChatMessage (ChatStore.randomUUID rnd 1) assistant text
    (ChatStore.Date_now rnd 1).

(** The completion [sendMessage] asks for, run with the recording
    consumer. *)
Definition completion_asked (env : Env) (rnd : ChatStore.Entropy)
  (st : ChatStore.ChatState) : option (list jsstring * Outcome) :=
  getChatCompletion record env []
    (ChatStore.groqMessages (ChatStore.randomUUID rnd 1)
       (ChatStore.mkState (ChatStore.messages st) true))
    (mkOptions None None None None).

Definition earlier_messages : list ChatStore.ChatMessage :=
  ChatStore.messages earlier_store.

Definition reader_two_chunks : Reader :=
  mkReader [bytes_of (terminated [record_line "Well, "; record_line "yes."])]
           Done.

(** ** [JSON_parse] has fuel enough *)

Section Fuel.

Local Open Scope nat_scope.

Lemma skip_ws_length (s : jsstring) : length (skip_ws s) <= length s.
Proof.
  induction s as [|c s IH]; simpl; [lia|].
  destruct (isJSONWhiteSpace c); simpl; lia.
Qed.

Lemma skip_ws_cons (s r : jsstring) (c : codeunit) :
  skip_ws s = c :: r -> length r < length s.
Proof. intros H. pose proof (skip_ws_length s) as L. rewrite H in L. simpl in L. lia. Qed.

Lemma push_char_some (c : codeunit) (x : option (jsstring * jsstring))
  (chars rest : jsstring) :
  push_char c x = Some (chars, rest) -> exists chars', x = Some (chars', rest).
Proof.
  destruct x as [[chars' rest']|]; simpl; [|discriminate].
  intros [= _ <-]. now exists chars'.
Qed.

Lemma parse_chars_consumes : consumes parse_chars.
Proof.
  unfold consumes. intros s.
  remember (length s) as n eqn:Hn.
  assert (Hle : length s <= n) by lia. clear Hn.
  revert s Hle. induction n as [|n IH]; intros s Hle chars rest.
  - destruct s; simpl in *; [discriminate | lia].
  - destruct s as [|c s1]; simpl; [discriminate|]. simpl in Hle.
    destruct (c =? 0x22)%N; [intros [= _ <-]; lia|].
    destruct (c =? 0x5C)%N.
    + destruct s1 as [|e s2]; [discriminate|]. simpl in Hle.
      destruct (e =? 0x75)%N.
      * destruct s2 as [|h1 [|h2 [|h3 [|h4 s3]]]]; try discriminate.
        simpl in Hle.
        destruct (hex4 h1 h2 h3 h4); [|discriminate].
        intros H. apply push_char_some in H as [chars' H].
        apply IH in H; simpl; lia.
      * destruct (escape e); [|discriminate].
        intros H. apply push_char_some in H as [chars' H].
        apply IH in H; simpl; lia.
    + destruct (c <? 0x20)%N; [discriminate|].
      intros H. apply push_char_some in H as [chars' H].
      apply IH in H; simpl; lia.
Qed.

Lemma span_digits_length (s : jsstring) :
  length (snd (span_digits s)) <= length s.
Proof.
  induction s as [|c s IH]; simpl; [lia|].
  destruct (isDigit c); simpl; [|lia].
  destruct (span_digits s); simpl in *; lia.
Qed.

Lemma digits1_length (s ds r : jsstring) :
  digits1 s = Some (ds, r) -> length r <= length s.
Proof.
  unfold digits1. pose proof (span_digits_length s) as L.
  destruct (span_digits s) as [[|d ds'] r']; [discriminate|].
  intros [= _ <-]. exact L.
Qed.

Lemma parse_int_consumes : consumes parse_int.
Proof.
  intros [|d r] i rest; simpl; [discriminate|].
  destruct (d =? 0x30)%N; [intros [= _ <-]; lia|].
  destruct (isDigit d); [|discriminate].
  pose proof (span_digits_length r) as L.
  destruct (span_digits r) as [ds r']. intros [= _ <-]. simpl in L. lia.
Qed.

Lemma parse_frac_length (s f r : jsstring) :
  parse_frac s = Some (f, r) -> length r <= length s.
Proof.
  destruct s as [|c s']; simpl; [intros [= _ <-]; simpl; lia|].
  destruct (c =? 0x2E)%N; [|intros [= _ <-]; simpl; lia].
  destruct (digits1 s') as [[ds r']|] eqn:E; [|discriminate].
  intros [= _ <-]. apply digits1_length in E. lia.
Qed.

Lemma parse_exp_length (s e r : jsstring) :
  parse_exp s = Some (e, r) -> length r <= length s.
Proof.
  destruct s as [|c s']; simpl; [intros [= _ <-]; simpl; lia|].
  destruct ((c =? 0x65)%N || (c =? 0x45)%N); [|intros [= _ <-]; simpl; lia].
  destruct s' as [|g r0].
  - simpl. discriminate.
  - destruct ((g =? 0x2B)%N || (g =? 0x2D)%N).
    + destruct (digits1 r0) as [[ds r']|] eqn:E; [|discriminate].
      intros [= _ <-]. apply digits1_length in E. simpl. lia.
    + destruct (digits1 (g :: r0)) as [[ds r']|] eqn:E; [|discriminate].
      intros [= _ <-]. apply digits1_length in E. simpl in *. lia.
Qed.

Lemma parse_number_consumes : consumes parse_number.
Proof.
  intros s lexeme rest. unfold parse_number.
  assert (H : forall sign s1, length s1 <= length s ->
            match parse_int s1 with
            | Some (i, s2) =>
                match parse_frac s2 with
                | Some (f, s3) =>
                    match parse_exp s3 with
                    | Some (e, s4) => Some (sign ++ i ++ f ++ e, s4)
                    | None => None
                    end
                | None => None
                end
            | None => None
            end = Some (lexeme, rest) -> length rest < length s).
  { intros sign s1 L.
    destruct (parse_int s1) as [[i s2]|] eqn:Ei; [|discriminate].
    destruct (parse_frac s2) as [[f s3]|] eqn:Ef; [|discriminate].
    destruct (parse_exp s3) as [[e s4]|] eqn:Ee; [|discriminate].
    intros [= _ <-].
    apply parse_int_consumes in Ei. apply parse_frac_length in Ef.
    apply parse_exp_length in Ee. lia. }
  destruct s as [|c r]; [apply H; simpl; lia|].
  destruct (c =? 0x2D)%N; apply H; simpl; lia.
Qed.

Lemma stripPrefix_length (p s r : jsstring) :
  stripPrefix p s = Some r -> length s = length p + length r.
Proof.
  revert s; induction p as [|x p IH]; intros [|y s]; simpl;
    try discriminate; try (intros [= <-]; reflexivity).
  destruct (x =? y)%N; [|discriminate].
  intros H. apply IH in H. lia.
Qed.

Lemma expect_consumes (p s rest : jsstring) (v w : json) :
  p <> [] -> expect p s v = Some (w, rest) -> length rest < length s.
Proof.
  unfold expect. intros Hp.
  destruct (stripPrefix p s) as [r|] eqn:E; [|discriminate].
  intros [= _ <-]. apply stripPrefix_length in E.
  destruct p; [congruence | simpl in E; lia].
Qed.

Section Steps.

Context (value value' : jsstring -> option (json * jsstring))
        (elements elements' : jsstring -> option (list json * jsstring))
        (members members'
           : jsstring -> option (list (jsstring * json) * jsstring)).

Lemma value_step_consumes :
  consumes elements -> consumes members ->
  consumes (value_step elements members).
Proof.
  intros He Hm s v rest. unfold value_step.
  destruct (skip_ws s) as [|c r] eqn:Es; [discriminate|].
  apply skip_ws_cons in Es.
  destruct (c =? 0x7B)%N.
  { destruct (skip_ws r) as [|c' r'] eqn:Er; [discriminate|].
    pose proof (skip_ws_length r) as Lr. rewrite Er in Lr. simpl in Lr.
    destruct (c' =? 0x7D)%N; [intros [= _ <-]; lia|].
    destruct (members (c' :: r')) as [[ms rest']|] eqn:E; [|discriminate].
    intros [= _ <-]. apply Hm in E. simpl in E. lia. }
  destruct (c =? 0x5B)%N.
  { destruct (skip_ws r) as [|c' r'] eqn:Er; [discriminate|].
    pose proof (skip_ws_length r) as Lr. rewrite Er in Lr. simpl in Lr.
    destruct (c' =? 0x5D)%N; [intros [= _ <-]; lia|].
    destruct (elements (c' :: r')) as [[vs rest']|] eqn:E; [|discriminate].
    intros [= _ <-]. apply He in E. simpl in E. lia. }
  destruct (c =? 0x22)%N.
  { destruct (parse_chars r) as [[chars rest']|] eqn:E; [|discriminate].
    intros [= _ <-]. apply parse_chars_consumes in E. lia. }
  destruct (c =? 0x74)%N.
  { intros H. apply expect_consumes in H; [simpl in H; lia|].
    vm_compute; discriminate. }
  destruct (c =? 0x66)%N.
  { intros H. apply expect_consumes in H; [simpl in H; lia|].
    vm_compute; discriminate. }
  destruct (c =? 0x6E)%N.
  { intros H. apply expect_consumes in H; [simpl in H; lia|].
    vm_compute; discriminate. }
  destruct (parse_number (c :: r)) as [[lexeme rest']|] eqn:E; [|discriminate].
  intros [= _ <-]. apply parse_number_consumes in E. simpl in E. lia.
Qed.

Lemma elements_step_consumes :
  consumes value -> consumes elements ->
  consumes (elements_step value elements).
Proof.
  intros Hv He s vs rest. unfold elements_step.
  destruct (value s) as [[v r]|] eqn:E; [|discriminate]. apply Hv in E.
  destruct (skip_ws r) as [|c r'] eqn:Er; [discriminate|].
  apply skip_ws_cons in Er.
  destruct (c =? 0x2C)%N.
  - destruct (elements r') as [[vs' rest']|] eqn:E'; [|discriminate].
    intros [= _ <-]. apply He in E'. lia.
  - destruct (c =? 0x5D)%N; [|discriminate]. intros [= _ <-]. lia.
Qed.

Lemma members_step_consumes :
  consumes value -> consumes members ->
  consumes (members_step value members).
Proof.
  intros Hv Hm s ms rest. unfold members_step.
  destruct (skip_ws s) as [|q r0] eqn:Es; [discriminate|].
  apply skip_ws_cons in Es.
  destruct (q =? 0x22)%N; [|discriminate].
  destruct (parse_chars r0) as [[key r1]|] eqn:Ek; [|discriminate].
  apply parse_chars_consumes in Ek.
  destruct (skip_ws r1) as [|colon r2] eqn:E1; [discriminate|].
  apply skip_ws_cons in E1.
  destruct (colon =? 0x3A)%N; [|discriminate].
  destruct (value r2) as [[v r3]|] eqn:E; [|discriminate]. apply Hv in E.
  destruct (skip_ws r3) as [|c r4] eqn:E3; [discriminate|].
  apply skip_ws_cons in E3.
  destruct (c =? 0x2C)%N.
  - destruct (members r4) as [[ms' rest']|] eqn:E'; [|discriminate].
    intros [= _ <-]. apply Hm in E'. lia.
  - destruct (c =? 0x7D)%N; [|discriminate]. intros [= _ <-]. lia.
Qed.

Lemma value_step_agree (s : jsstring) :
  (forall x, length x < length s -> elements x = elements' x) ->
  (forall x, length x < length s -> members x = members' x) ->
  value_step elements members s = value_step elements' members' s.
Proof.
  intros He Hm. unfold value_step.
  destruct (skip_ws s) as [|c r] eqn:Es; [reflexivity|].
  apply skip_ws_cons in Es.
  destruct (skip_ws r) as [|c' r'] eqn:Er; [reflexivity|].
  pose proof (skip_ws_length r) as Lr. rewrite Er in Lr. simpl in Lr.
  rewrite (He (c' :: r')), (Hm (c' :: r')) by (simpl; lia).
  reflexivity.
Qed.

Lemma elements_step_agree (s : jsstring) :
  consumes value -> value s = value' s ->
  (forall x, length x + 2 <= length s -> elements x = elements' x) ->
  elements_step value elements s = elements_step value' elements' s.
Proof.
  intros Hc Hv He. unfold elements_step. rewrite <- Hv.
  destruct (value s) as [[v r]|] eqn:E; [|reflexivity]. apply Hc in E.
  destruct (skip_ws r) as [|c r'] eqn:Er; [reflexivity|].
  apply skip_ws_cons in Er.
  now rewrite (He r') by lia.
Qed.

Lemma members_step_agree (s : jsstring) :
  consumes value ->
  (forall x, length x + 3 <= length s -> value x = value' x) ->
  (forall x, length x + 2 <= length s -> members x = members' x) ->
  members_step value members s = members_step value' members' s.
Proof.
  intros Hc Hv Hm. unfold members_step.
  destruct (skip_ws s) as [|q r0] eqn:Es; [reflexivity|].
  apply skip_ws_cons in Es.
  destruct (q =? 0x22)%N; [|reflexivity].
  destruct (parse_chars r0) as [[key r1]|] eqn:Ek; [|reflexivity].
  apply parse_chars_consumes in Ek.
  destruct (skip_ws r1) as [|colon r2] eqn:E1; [reflexivity|].
  apply skip_ws_cons in E1.
  destruct (colon =? 0x3A)%N; [|reflexivity].
  rewrite <- (Hv r2) by lia.
  destruct (value r2) as [[v r3]|] eqn:E; [|reflexivity]. apply Hc in E.
  destruct (skip_ws r3) as [|c r4] eqn:E3; [reflexivity|].
  apply skip_ws_cons in E3.
  now rewrite (Hm r4) by lia.
Qed.

End Steps.

Lemma parse_consumes (fuel : nat) :
  consumes (parse_value fuel) /\ consumes (parse_elements fuel)
  /\ consumes (parse_members fuel).
Proof.
  induction fuel as [|fuel (IHv & IHe & IHm)].
  - repeat split; intros s a rest; discriminate.
  - repeat split; simpl.
    + now apply value_step_consumes.
    + now apply elements_step_consumes.
    + now apply members_step_consumes.
Qed.

Lemma parse_fuel (fuel : nat) :
  (forall s fuel', 2 * length s <= fuel -> fuel <= fuel' ->
                   parse_value fuel s = parse_value fuel' s)
  /\ (forall s fuel', 2 * length s + 1 <= fuel -> fuel <= fuel' ->
                      parse_elements fuel s = parse_elements fuel' s)
  /\ (forall s fuel', 2 * length s + 1 <= fuel -> fuel <= fuel' ->
                      parse_members fuel s = parse_members fuel' s).
Proof.
  induction fuel as [|fuel (IHv & IHe & IHm)].
  - repeat split; intros s fuel' Hs Hf; [|lia|lia].
    destruct s; [|simpl in Hs; lia]. now destruct fuel'.
  - destruct (parse_consumes fuel) as (Cv & _).
    repeat split; intros s [|fuel'] Hs Hf; try lia; simpl.
    + apply value_step_agree; intros x Hx;
        [apply IHe | apply IHm]; lia.
    + apply elements_step_agree; [exact Cv | apply IHv; lia |].
      intros x Hx. apply IHe; lia.
    + apply members_step_agree; [exact Cv | |]; intros x Hx;
        [apply IHv | apply IHm]; lia.
Qed.

(** More fuel than [JSON_fuel] changes nothing. *)
Lemma JSON_parse_fuel (text : jsstring) (fuel : nat) :
  JSON_fuel text <= fuel ->
  parse_value fuel text = parse_value (JSON_fuel text) text.
Proof.
  intros H. symmetry.
  apply (proj1 (parse_fuel (JSON_fuel text))); [unfold JSON_fuel; lia | exact H].
Qed.

End Fuel.

(** ** Strings, lines and chunks *)

Lemma str_eqb_eq (a b : jsstring) : str_eqb a b = true <-> a = b.
Proof.
  revert b; induction a as [|x a IH]; intros [|y b]; simpl;
    try (split; [discriminate | congruence]); [tauto|].
  rewrite andb_true_iff, N.eqb_eq, IH. split.
  - intros [-> ->]; reflexivity.
  - intros H; injection H; auto.
Qed.

Lemma str_eqb_refl (a : jsstring) : str_eqb a a = true.
Proof. apply str_eqb_eq; reflexivity. Qed.

Lemma pop_snoc {A : Type} (l : list A) (x : A) : pop (l ++ [x]) = (l, Some x).
Proof.
  unfold pop. rewrite rev_app_distr. simpl. now rewrite rev_involutive.
Qed.

Lemma split_cut (s : jsstring) : split LF s = fst (cut s) ++ [snd (cut s)].
Proof.
  induction s as [|c s IH]; simpl; [reflexivity|].
  destruct (cut s) as [ls r]; simpl in IH.
  destruct (c =? LF); simpl.
  - now rewrite IH.
  - rewrite IH. destruct ls; reflexivity.
Qed.

Lemma pop_split (s : jsstring) :
  pop (split LF s) = (fst (cut s), Some (snd (cut s))).
Proof. rewrite split_cut. apply pop_snoc. Qed.

Lemma cut_app (a b : jsstring) :
  cut (a ++ b) =
  (fst (cut a) ++ fst (cut (snd (cut a) ++ b)), snd (cut (snd (cut a) ++ b))).
Proof.
  induction a as [|c a IH]; simpl.
  - now destruct (cut b).
  - rewrite IH. destruct (cut a) as [la ra]; simpl.
    destruct (cut (ra ++ b)) as [lb rb] eqn:E; simpl.
    destruct (c =? LF) eqn:Ec; simpl.
    + now rewrite E.
    + destruct la as [|l la]; simpl.
      * rewrite E, Ec. destruct lb; reflexivity.
      * now rewrite E.
Qed.

Lemma cut_noLF (s : jsstring) : ~ In LF s -> cut s = ([], s).
Proof.
  induction s as [|c s IH]; simpl; intros H; [reflexivity|].
  rewrite IH by tauto.
  destruct (N.eqb_spec c LF) as [->|_]; [tauto | reflexivity].
Qed.

Lemma cut_rest_noLF (s : jsstring) : ~ In LF (snd (cut s)).
Proof.
  induction s as [|c s IH]; simpl; [tauto|].
  destruct (cut s) as [ls r]; simpl in IH.
  destruct (N.eqb_spec c LF) as [->|Hc]; simpl; [assumption|].
  destruct ls; simpl; [|assumption].
  intros [H|H]; [congruence | tauto].
Qed.

Lemma cut_line_app (l rest : jsstring) :
  ~ In LF l ->
  cut (l ++ LF :: rest) = (l :: fst (cut rest), snd (cut rest)).
Proof.
  induction l as [|c l IH]; simpl; intros H.
  - now destruct (cut rest).
  - rewrite IH by tauto.
    destruct (N.eqb_spec c LF) as [->|_]; [tauto | reflexivity].
Qed.

Lemma cut_line (l : jsstring) : ~ In LF l -> cut (l ++ [LF]) = ([l], []).
Proof. intros H. now rewrite cut_line_app. Qed.

Lemma cut_terminated (lines : list jsstring) (rest : jsstring) :
  Forall (fun l => ~ In LF l) lines ->
  cut (terminated lines ++ rest) = (lines ++ fst (cut rest), snd (cut rest)).
Proof.
  induction 1 as [|l lines Hl _ IH]; simpl.
  - now destruct (cut rest).
  - unfold terminated in *; simpl. rewrite <- !app_assoc. simpl.
    rewrite (cut_line_app l _ Hl), IH. reflexivity.
Qed.

Lemma cut_ends_LF (s : jsstring) : snd (cut (s ++ [LF])) = [].
Proof.
  rewrite cut_app. simpl.
  rewrite (cut_line _ (cut_rest_noLF s)). reflexivity.
Qed.

Lemma cut_terminated_rest (lines : list jsstring) :
  snd (cut (terminated lines)) = [].
Proof.
  induction lines as [|l lines IH]; [reflexivity|].
  unfold terminated in *; simpl.
  rewrite cut_app; simpl. rewrite cut_ends_LF. simpl. exact IH.
Qed.

(** ** The loop body as decoding followed by assembling *)

Section Assembling.

Context {S : Type} (onChunk : jsstring -> S -> S).

Lemma process_line_decode (st : Loop S) (line : jsstring) :
  process_line onChunk st line
  = option_map (assemble onChunk st) (decode_line line).
Proof.
  unfold process_line, decode_line.
  destruct (negb _ || _); [reflexivity|].
  destruct (JSON_parse _) as [data|]; [|reflexivity].
  destruct (delta_content data) as [v|]; [|reflexivity].
  destruct (content_or_empty v) as [text|]; [|reflexivity].
  simpl. unfold assemble; simpl.
  destruct (truthy_str text); [|reflexivity].
  destruct (4 <=? _); simpl; [reflexivity|].
  destruct (finish_reason_is_stop data) as [[|]|]; reflexivity.
Qed.

Lemma assemble_buffer (b : jsstring) (st : Loop S) (f : Fragment) :
  assemble onChunk (with_buffer b st) f = with_buffer b (assemble onChunk st f).
Proof.
  unfold assemble; simpl.
  destruct (truthy_str _); [|reflexivity].
  destruct (_ || _); reflexivity.
Qed.

Lemma assemble_assembled (st : Loop S) (f : Fragment) :
  assembled (assemble onChunk st f) = assembled st ++ frag_text f.
Proof.
  unfold assemble, assembled.
  destruct (frag_text f) as [|c text] eqn:E; simpl.
  - now rewrite app_nil_r.
  - destruct (_ || _); simpl; rewrite ?app_nil_r, ?app_assoc; reflexivity.
Qed.

Lemma fold_assemble_buffer (b : jsstring) (frags : list Fragment) :
  forall st : Loop S,
    fold_left (assemble onChunk) frags (with_buffer b st)
    = with_buffer b (fold_left (assemble onChunk) frags st).
Proof.
  induction frags as [|f frags IH]; intros st; simpl; [reflexivity|].
  now rewrite assemble_buffer, IH.
Qed.

Lemma fold_assemble_assembled (frags : list Fragment) :
  forall st : Loop S,
    assembled (fold_left (assemble onChunk) frags st)
    = assembled st ++ concat (map frag_text frags).
Proof.
  induction frags as [|f frags IH]; intros st; simpl.
  - now rewrite app_nil_r.
  - now rewrite IH, assemble_assembled, app_assoc.
Qed.

Lemma process_line_buffer (b : jsstring) (st : Loop S) (line : jsstring) :
  process_line onChunk (with_buffer b st) line
  = option_map (with_buffer b) (process_line onChunk st line).
Proof.
  rewrite !process_line_decode.
  destruct (decode_line line); simpl; [|reflexivity].
  now rewrite assemble_buffer.
Qed.

Lemma process_lines_buffer (b : jsstring) (lines : list jsstring) :
  forall st : Loop S,
    process_lines onChunk (with_buffer b st) lines
    = option_map (with_buffer b) (process_lines onChunk st lines).
Proof.
  induction lines as [|l lines IH]; intros st; simpl; [reflexivity|].
  rewrite process_line_buffer.
  destruct (process_line onChunk st l); simpl; [apply IH | reflexivity].
Qed.

Lemma process_lines_app (l1 l2 : list jsstring) :
  forall st : Loop S,
    process_lines onChunk st (l1 ++ l2)
    = match process_lines onChunk st l1 with
      | Some st' => process_lines onChunk st' l2
      | None => None
      end.
Proof.
  induction l1 as [|l l1 IH]; intros st; simpl; [reflexivity|].
  destruct (process_line onChunk st l); [apply IH | reflexivity].
Qed.

Lemma process_lines_fragments (lines : list jsstring) (frags : list Fragment) :
  Forall2 (fun l f => decode_line l = Some f) lines frags ->
  forall st : Loop S,
    process_lines onChunk st lines
    = Some (fold_left (assemble onChunk) frags st).
Proof.
  induction 1 as [|l f lines frags Hl _ IH]; intros st; simpl; [reflexivity|].
  rewrite process_line_decode, Hl. simpl. apply IH.
Qed.

Lemma with_buffer_same (st : Loop S) : with_buffer (buffer st) st = st.
Proof. now destruct st. Qed.

Lemma with_buffer_twice (b b' : jsstring) (st : Loop S) :
  with_buffer b (with_buffer b' st) = with_buffer b st.
Proof. reflexivity. Qed.

Lemma read_value_cut (st : Loop S) (value : list byte) :
  read_value onChunk st value
  = process_lines onChunk
      (with_buffer (snd (cut (buffer st ++ TextDecoder_decode value))) st)
      (fst (cut (buffer st ++ TextDecoder_decode value))).
Proof.
  unfold read_value. rewrite pop_split.
  destruct (snd (cut _)); reflexivity.
Qed.

(** The loop sees the decoded text only: the lines it processes are
    the complete lines of everything decoded so far, and what it keeps
    is the partial line at the end. *)
Lemma read_loop_decoded (values : list (list byte)) :
  forall st : Loop S,
    ~ In LF (buffer st) ->
    read_loop onChunk st values
    = option_map (with_buffer (snd (cut (buffer st ++ decoded values))))
        (process_lines onChunk st (fst (cut (buffer st ++ decoded values)))).
Proof.
  induction values as [|v values IH]; intros st Hb.
  - unfold decoded; simpl. rewrite app_nil_r, (cut_noLF _ Hb). simpl.
    now rewrite with_buffer_same.
  - simpl. rewrite read_value_cut.
    change (decoded (v :: values))
      with (TextDecoder_decode v ++ decoded values).
    rewrite app_assoc, (cut_app (buffer st ++ TextDecoder_decode v)).
    set (l1 := fst (cut (buffer st ++ TextDecoder_decode v))).
    set (r1 := snd (cut (buffer st ++ TextDecoder_decode v))).
    assert (Hr1 : ~ In LF r1) by apply cut_rest_noLF.
    simpl. rewrite process_lines_app, process_lines_buffer.
    destruct (process_lines onChunk st l1) as [st1|]; simpl; [|reflexivity].
    rewrite (IH (with_buffer r1 st1) Hr1). simpl.
    rewrite process_lines_buffer.
    destruct (process_lines onChunk st1 _); reflexivity.
Qed.

Lemma finish_buffer (b : jsstring) (st : Loop S) :
  finish onChunk (with_buffer b st) = finish onChunk st.
Proof. reflexivity. Qed.

Lemma finish_assembled (st : Loop S) :
  snd (finish onChunk st) = Resolved (assembled st).
Proof.
  unfold finish, assembled.
  destruct (accumulatedChunks st); simpl; [now rewrite app_nil_r | reflexivity].
Qed.

Lemma consume_decoded (s0 : S) (reader : Reader) :
  consume onChunk s0 reader
  = option_map (settle onChunk (ending reader))
      (process_lines onChunk (initial s0)
         (fst (cut (decoded (reads reader))))).
Proof.
  unfold consume. rewrite read_loop_decoded by (simpl; tauto). simpl.
  destruct (process_lines onChunk (initial s0) _) as [st|]; simpl;
    [|reflexivity].
  destruct (ending reader); reflexivity.
Qed.

Lemma getChatCompletion_delivers (env : Env) (s0 : S)
  (messages : list ChatMessage) (options : CompletionOptions)
  (reader : Reader) :
  delivers env messages options reader ->
  getChatCompletion onChunk env s0 messages options
  = consume onChunk s0 reader.
Proof.
  intros (key & response & Hkey & Hne & Hfetch & Hok & Hbody).
  unfold getChatCompletion. rewrite Hkey.
  destruct key as [|c key]; [congruence|].
  now rewrite Hfetch, Hok, Hbody.
Qed.

End Assembling.

Section Replaying.

Context {S : Type} (onChunk : jsstring -> S -> S).

(** Any consumer sees what the recording consumer recorded. *)
Lemma assemble_project (s0 : S) (st : Loop (list jsstring)) (f : Fragment) :
  assemble onChunk (project onChunk s0 st) f
  = project onChunk s0 (assemble record st f).
Proof.
  unfold assemble; simpl.
  destruct (truthy_str _); [|reflexivity].
  destruct (_ || _); [|reflexivity].
  unfold project, flush, replay, record; simpl.
  now rewrite fold_left_app.
Qed.

Lemma process_lines_project (s0 : S) (lines : list jsstring) :
  forall st : Loop (list jsstring),
    process_lines onChunk (project onChunk s0 st) lines
    = option_map (project onChunk s0) (process_lines record st lines).
Proof.
  induction lines as [|l lines IH]; intros st; simpl; [reflexivity|].
  rewrite !process_line_decode.
  destruct (decode_line l) as [f|]; simpl; [|reflexivity].
  rewrite assemble_project. apply IH.
Qed.

Lemma settle_project (s0 : S) (e : ReadEnd) (st : Loop (list jsstring)) :
  settle onChunk e (project onChunk s0 st)
  = replayed onChunk s0 (settle record e st).
Proof.
  destruct e; simpl; [|reflexivity].
  unfold finish, replayed; simpl.
  destruct (truthy_str _); simpl; [|reflexivity].
  unfold replay, record. now rewrite fold_left_app.
Qed.

Lemma consume_replay (s0 : S) (reader : Reader) :
  consume onChunk s0 reader
  = option_map (replayed onChunk s0) (consume record [] reader).
Proof.
  rewrite !consume_decoded.
  change (initial s0) with (project onChunk s0 (initial [])).
  rewrite process_lines_project.
  destruct (process_lines record _ _) as [st|]; simpl; [|reflexivity].
  now rewrite settle_project.
Qed.

Lemma getChatCompletion_replay (env : Env) (s0 : S)
  (messages : list ChatMessage) (options : CompletionOptions) :
  getChatCompletion onChunk env s0 messages options
  = option_map (replayed onChunk s0)
      (getChatCompletion record env [] messages options).
Proof.
  unfold getChatCompletion.
  destruct (GROQ_API_KEY env) as [[|c key]|]; try reflexivity.
  destruct (fetch env _) as [response|reason]; [|reflexivity].
  destruct (negb (ok response)); [reflexivity|].
  destruct (body response) as [reader|]; [|reflexivity].
  apply consume_replay.
Qed.

End Replaying.

(** ** Records, malformed lines and the sentinel, as fragments *)

Lemma noLF_spec (s : jsstring) : noLF s = true -> ~ In LF s.
Proof.
  unfold noLF. rewrite forallb_forall. intros H Hin.
  specialize (H LF Hin). now rewrite N.eqb_refl in H.
Qed.

Lemma record_content_decode (line text : jsstring) :
  record_content line = Some text ->
  exists stop, decode_line line = Some (mkFragment text stop).
Proof.
  unfold record_content, decode_line.
  destruct (negb _ || _); [discriminate|].
  destruct (JSON_parse _) as [data|]; [|discriminate].
  destruct (delta_content data) as [[[]| ]|]; try discriminate;
    intros [= <-]; eexists; reflexivity.
Qed.

Lemma malformed_decode (line : jsstring) :
  malformed line = true -> decode_line line = Some skipped.
Proof.
  unfold malformed, decode_line.
  destruct (negb _ || _); [reflexivity|].
  destruct (JSON_parse _) as [data|]; [|reflexivity].
  destruct (delta_content data); [discriminate | reflexivity].
Qed.

Lemma sentinel_decode (line : jsstring) :
  trim line = DONE -> decode_line line = Some skipped.
Proof.
  intros H. unfold decode_line. rewrite H, str_eqb_refl.
  now rewrite orb_true_r.
Qed.

Lemma DataRecords_fragments (lines contents : list jsstring) :
  Forall2 DataRecord lines contents ->
  Forall (fun l => ~ In LF l) lines /\
  exists frags,
    Forall2 (fun l f => decode_line l = Some f) lines frags /\
    map frag_text frags = contents.
Proof.
  induction 1 as [|l c lines contents [Hl Hc] _ [IH1 (frags & IH2 & IH3)]].
  - split; [constructor|]. exists []. split; [constructor | reflexivity].
  - destruct (record_content_decode l c Hc) as [stop Hd].
    split; [now constructor|].
    exists (mkFragment c stop :: frags). split; [now constructor|].
    simpl. now rewrite IH3.
Qed.

Section Completing.

Context {S : Type} (onChunk : jsstring -> S -> S).

(** A response whose text is a sequence of terminated lines, each
    decoding to a fragment: the fragments are assembled in order and
    the end of the reader settles the promise. *)
Lemma completion_of_fragments (env : Env) (s0 : S)
  (messages : list ChatMessage) (options : CompletionOptions)
  (reader : Reader) (lines : list jsstring) (frags : list Fragment) :
  delivers env messages options reader ->
  decoded (reads reader) = terminated lines ->
  Forall (fun l => ~ In LF l) lines ->
  Forall2 (fun l f => decode_line l = Some f) lines frags ->
  getChatCompletion onChunk env s0 messages options
  = Some (settle onChunk (ending reader)
            (fold_left (assemble onChunk) frags (initial s0))).
Proof.
  intros Hd Htext Hlines Hfrags.
  rewrite (getChatCompletion_delivers onChunk env s0 _ _ _ Hd).
  rewrite consume_decoded, Htext.
  rewrite <- (app_nil_r (terminated lines)), (cut_terminated lines [] Hlines).
  simpl. rewrite app_nil_r.
  now rewrite (process_lines_fragments onChunk lines frags Hfrags).
Qed.

Lemma resolved_text (frags : list Fragment) (s0 : S) :
  snd (settle onChunk Done (fold_left (assemble onChunk) frags (initial s0)))
  = Resolved (concat (map frag_text frags)).
Proof.
  simpl. now rewrite finish_assembled, fold_assemble_assembled.
Qed.

End Completing.

(** ** The claims *)

(** C1. For every sequence of well-formed DataRecord lines delivered to
    [getChatCompletion], each followed by its line feed and however the
    text is spread over the reads, the promise resolves with the
    concatenation of the records' [delta.content] values in arrival
    order: nothing reordered, lost or duplicated. *)
Theorem C1_final_text_is_concatenation :
  forall (S : Type) (onChunk : jsstring -> S -> S) (s0 : S) (env : Env)
         (messages : list ChatMessage) (options : CompletionOptions)
         (reader : Reader) (lines contents : list jsstring),
    delivers env messages options reader ->
    ending reader = Done ->
    Forall2 DataRecord lines contents ->
    decoded (reads reader) = terminated lines ->
    option_map snd (getChatCompletion onChunk env s0 messages options)
    = Some (Resolved (concat contents)).
Proof.
  intros S onChunk s0 env messages options reader lines contents
         Hd Hend Hrec Htext.
  destruct (DataRecords_fragments lines contents Hrec)
    as [Hlines (frags & Hfrags & <-)].
  rewrite (completion_of_fragments onChunk env s0 messages options reader
             lines frags Hd Htext Hlines Hfrags).
  rewrite Hend. cbn [option_map]. f_equal. apply resolved_text.
Qed.

Lemma streaming_delivers (reader : Reader) (messages : list ChatMessage)
  (options : CompletionOptions) :
  delivers (streaming reader) messages options reader.
Proof.
  exists a_key, (mkResponse true 200 (lit "OK") None (Some reader)).
  repeat split; try reflexivity. discriminate.
Qed.

Lemma DataRecord_by_computation (line content : jsstring) :
  noLF line = true -> record_content line = Some content ->
  DataRecord line content.
Proof. intros H1 H2. split; [now apply noLF_spec | exact H2]. Qed.

Lemma C1_final_text_is_concatenation_witness :
  option_map snd
    (getChatCompletion record
       (streaming (mkReader [bytes_of (line_Hi ++ [LF]);
                             bytes_of (line_there ++ [LF])] Done))
       [] (ask "Hi") no_options)
  = Some (Resolved (concat [lit "Hi"; lit " there"])).
Proof.
  apply (C1_final_text_is_concatenation (list jsstring) record []
           (streaming (mkReader [bytes_of (line_Hi ++ [LF]);
                                 bytes_of (line_there ++ [LF])] Done))
           (ask "Hi") no_options
           (mkReader [bytes_of (line_Hi ++ [LF]);
                      bytes_of (line_there ++ [LF])] Done)
           [line_Hi; line_there] [lit "Hi"; lit " there"]).
  - apply streaming_delivers.
  - reflexivity.
  - repeat constructor; vm_compute; try reflexivity; intuition discriminate.
  - vm_compute. reflexivity.
Defined.

(** C6. A line on which the parse of the payload throws is skipped and
    the stream goes on: with one malformed line between two valid
    DataRecord lines, the promise resolves with the first record's
    content immediately followed by the second's. *)
Theorem C6_malformed_line_is_skipped :
  forall (S : Type) (onChunk : jsstring -> S -> S) (s0 : S) (env : Env)
         (messages : list ChatMessage) (options : CompletionOptions)
         (reader : Reader) (first bad second c1 c2 : jsstring),
    delivers env messages options reader ->
    ending reader = Done ->
    DataRecord first c1 ->
    ~ In LF bad -> malformed bad = true ->
    DataRecord second c2 ->
    decoded (reads reader) = terminated [first; bad; second] ->
    option_map snd (getChatCompletion onChunk env s0 messages options)
    = Some (Resolved (c1 ++ c2)).
Proof.
  intros S onChunk s0 env messages options reader first bad second c1 c2
         Hd Hend [Hl1 Hc1] Hlb Hbad [Hl2 Hc2] Htext.
  destruct (record_content_decode first c1 Hc1) as [stop1 Hf1].
  destruct (record_content_decode second c2 Hc2) as [stop2 Hf2].
  pose proof (malformed_decode bad Hbad) as Hfb.
  rewrite (completion_of_fragments onChunk env s0 messages options reader
             [first; bad; second]
             [mkFragment c1 stop1; skipped; mkFragment c2 stop2]
             Hd Htext); [| now repeat constructor | now repeat constructor].
  rewrite Hend. cbn [option_map]. f_equal.
  rewrite resolved_text. simpl. now rewrite app_nil_r.
Qed.

Lemma C6_malformed_line_is_skipped_witness :
  option_map snd
    (getChatCompletion record
       (streaming (mkReader [bytes_of (line_Hi ++ [LF] ++ line_broken);
                             bytes_of ([LF] ++ line_there ++ [LF])] Done))
       [] (ask "Hi") no_options)
  = Some (Resolved (lit "Hi" ++ lit " there")).
Proof.
  apply (C6_malformed_line_is_skipped (list jsstring) record []
           (streaming (mkReader [bytes_of (line_Hi ++ [LF] ++ line_broken);
                                 bytes_of ([LF] ++ line_there ++ [LF])] Done))
           (ask "Hi") no_options
           (mkReader [bytes_of (line_Hi ++ [LF] ++ line_broken);
                      bytes_of ([LF] ++ line_there ++ [LF])] Done)
           line_Hi line_broken line_there (lit "Hi") (lit " there")).
  - apply streaming_delivers.
  - reflexivity.
  - apply DataRecord_by_computation; vm_compute; reflexivity.
  - apply noLF_spec. vm_compute. reflexivity.
  - vm_compute. reflexivity.
  - apply DataRecord_by_computation; vm_compute; reflexivity.
  - vm_compute. reflexivity.
Defined.

(** C2, as the code has it.  A line that trims to [data: [DONE]] is
    skipped like a blank line and the loop goes on: the promise settles,
    and the consumer ends, exactly as on the same stream without that
    line, so the lines after the sentinel are processed as usual. *)
Theorem C2_sentinel_line_is_skipped :
  forall (S : Type) (onChunk : jsstring -> S -> S) (s0 : S)
         (env env' : Env) (messages messages' : list ChatMessage)
         (options options' : CompletionOptions) (reader reader' : Reader)
         (before : list jsstring) (sentinel after : jsstring),
    delivers env messages options reader ->
    delivers env' messages' options' reader' ->
    ending reader = ending reader' ->
    ~ In LF sentinel -> trim sentinel = DONE ->
    decoded (reads reader) = terminated before ++ sentinel ++ LF :: after ->
    decoded (reads reader') = terminated before ++ after ->
    getChatCompletion onChunk env s0 messages options
    = getChatCompletion onChunk env' s0 messages' options'.
Proof.
  intros S onChunk s0 env env' messages messages' options options'
         reader reader' before sentinel after Hd Hd' Hend Hl Hs Ht Ht'.
  rewrite (getChatCompletion_delivers onChunk env s0 _ _ _ Hd),
          (getChatCompletion_delivers onChunk env' s0 _ _ _ Hd').
  rewrite !consume_decoded, Ht, Ht', Hend.
  rewrite !(cut_app (terminated before)), cut_terminated_rest. simpl.
  rewrite (cut_line_app sentinel after Hl). simpl.
  rewrite !process_lines_app.
  destruct (process_lines onChunk (initial s0) (fst (cut (terminated before))))
    as [st|]; [|reflexivity].
  simpl. rewrite process_line_decode, (sentinel_decode sentinel Hs).
  reflexivity.
Qed.

Lemma C2_sentinel_line_is_skipped_witness :
  getChatCompletion record
    (streaming (mkReader [bytes_of (terminated [line_Hi; DONE; line_there])]
                  Done))
    [] (ask "Hi") no_options
  = getChatCompletion record
      (streaming (mkReader [bytes_of (terminated [line_Hi; line_there])] Done))
      [] (ask "Hi") no_options.
Proof.
  apply (C2_sentinel_line_is_skipped (list jsstring) record []
           (streaming (mkReader
                         [bytes_of (terminated [line_Hi; DONE; line_there])]
                         Done))
           (streaming (mkReader [bytes_of (terminated [line_Hi; line_there])]
                         Done))
           (ask "Hi") (ask "Hi") no_options no_options
           (mkReader [bytes_of (terminated [line_Hi; DONE; line_there])] Done)
           (mkReader [bytes_of (terminated [line_Hi; line_there])] Done)
           [line_Hi] DONE (terminated [line_there])).
  - apply streaming_delivers.
  - apply streaming_delivers.
  - reflexivity.
  - apply noLF_spec. vm_compute. reflexivity.
  - vm_compute. reflexivity.
  - vm_compute. reflexivity.
  - vm_compute. reflexivity.
Defined.

(** C2, as the claim has it, fails: a record line after the sentinel in
    the same chunk is processed, is passed to the callback and ends up
    in the text, where the claim has no callback and no text. *)
Lemma C2_counterexample :
  getChatCompletion record
    (streaming (mkReader [bytes_of (terminated [DONE; line_there])] Done))
    [] (ask "Hi") no_options
  = Some ([lit " there"], Resolved (lit " there"))
  /\ getChatCompletion record
       (streaming (mkReader [bytes_of (terminated [DONE; line_there])] Done))
       [] (ask "Hi") no_options
     <> Some ([], Resolved []).
Proof.
  split; [vm_compute; reflexivity | vm_compute; discriminate].
Qed.

(** ** Chunking *)

(** How the decoded text is spread over the reads does not matter. *)
Lemma chunking_of_text_is_irrelevant {S : Type} (onChunk : jsstring -> S -> S)
  (s0 : S) (reader reader' : Reader) :
  decoded (reads reader) = decoded (reads reader') ->
  ending reader = ending reader' ->
  consume onChunk s0 reader = consume onChunk s0 reader'.
Proof. intros Ht He. now rewrite !consume_decoded, Ht, He. Qed.

Lemma utf8_decode_ascii (bs : list N) :
  Forall (fun b => b <= 0x7F) bs -> utf8_decode utf8_init bs = bs.
Proof.
  induction 1 as [|b bs Hb _ IH]; [reflexivity|].
  cbn [utf8_decode utf8_init bytes_needed]. rewrite N.eqb_refl.
  unfold utf8_lead. apply N.leb_le in Hb. rewrite Hb.
  cbn [app]. now rewrite IH.
Qed.

Lemma TextDecoder_decode_ascii (bs : list byte) :
  ascii_bytes bs -> TextDecoder_decode bs = map Byte.to_N bs.
Proof.
  intros H. unfold TextDecoder_decode.
  rewrite utf8_decode_ascii by (now apply Forall_map).
  destruct H as [|b bs Hb _]; [reflexivity|].
  cbn [map]. destruct (N.eqb_spec (Byte.to_N b) 0xFEFF) as [E|_];
    [|reflexivity].
  rewrite E in Hb. now apply N.leb_le in Hb.
Qed.

Lemma decoded_one_by_one_ascii (bs : list byte) :
  ascii_bytes bs -> decoded (one_by_one bs) = decoded [bs].
Proof.
  intros H. unfold decoded at 2. cbn [map concat]. rewrite app_nil_r.
  rewrite (TextDecoder_decode_ascii bs H).
  induction H as [|b bs Hb Hbs IH]; [reflexivity|].
  unfold decoded, one_by_one in *. cbn [map concat].
  rewrite IH, (TextDecoder_decode_ascii [b]) by (now constructor).
  reflexivity.
Qed.

(** On a stream of ASCII bytes, one read or one read per byte give the
    same result. *)
Lemma chunking_invariance_ascii {S : Type} (onChunk : jsstring -> S -> S)
  (s0 : S) (bs : list byte) (e : ReadEnd) :
  ascii_bytes bs ->
  consume onChunk s0 (mkReader (one_by_one bs) e)
  = consume onChunk s0 (mkReader [bs] e).
Proof.
  intros H. apply chunking_of_text_is_irrelevant; [|reflexivity].
  now apply decoded_one_by_one_ascii.
Qed.

(** C3. The claim fails on the code where a character of several bytes
    is split between reads: each read is decoded on its own, so the two
    bytes of the letter e-acute, read one by one, give two replacement
    characters U+FFFD, where the single read gives the letter U+00E9. *)
Theorem C3_chunking_changes_text :
  getChatCompletion record (streaming (mkReader [bytes_e_acute] Done))
    [] (ask "Hi") no_options
  = Some ([[0xE9]], Resolved [0xE9])
  /\ getChatCompletion record
       (streaming (mkReader (one_by_one bytes_e_acute) Done))
       [] (ask "Hi") no_options
     = Some ([[0xFFFD; 0xFFFD]], Resolved [0xFFFD; 0xFFFD]).
Proof. split; vm_compute; reflexivity. Qed.

(** ** Updates *)

(** C4, as the code has it.  Five fragments a, b, c, d, e without stop
    signal give exactly two calls of [onChunk]: the first with abcd,
    when the pending text reaches four code units, and the second, at
    the final flush, with e alone.  A call carries the text flushed by
    it; the cumulative text abcde is what the promise resolves with. *)
Theorem C4_threshold_updates_carry_deltas :
  forall (env : Env) (messages : list ChatMessage)
         (options : CompletionOptions) (reader : Reader)
         (la lb lc ld le : jsstring),
    delivers env messages options reader ->
    ending reader = Done ->
    decoded (reads reader) = terminated [la; lb; lc; ld; le] ->
    Forall (fun l => ~ In LF l) [la; lb; lc; ld; le] ->
    decode_line la = Some (mkFragment (lit "a") false) ->
    decode_line lb = Some (mkFragment (lit "b") false) ->
    decode_line lc = Some (mkFragment (lit "c") false) ->
    decode_line ld = Some (mkFragment (lit "d") false) ->
    decode_line le = Some (mkFragment (lit "e") false) ->
    getChatCompletion record env [] messages options
    = Some ([lit "abcd"; lit "e"], Resolved (lit "abcde")).
Proof.
  intros env messages options reader la lb lc ld le
         Hd Hend Htext Hlines Ha Hb Hc Hd' He.
  rewrite (completion_of_fragments record env [] messages options reader
             [la; lb; lc; ld; le]
             [mkFragment (lit "a") false; mkFragment (lit "b") false;
              mkFragment (lit "c") false; mkFragment (lit "d") false;
              mkFragment (lit "e") false] Hd Htext Hlines);
    [| now repeat constructor].
  rewrite Hend. reflexivity.
Qed.

Lemma C4_threshold_updates_carry_deltas_witness :
  getChatCompletion record (streaming reader_abcde) [] (ask "Hi") no_options
  = Some ([lit "abcd"; lit "e"], Resolved (lit "abcde")).
Proof.
  apply (C4_threshold_updates_carry_deltas (streaming reader_abcde)
           (ask "Hi") no_options reader_abcde
           (record_line "a") (record_line "b") (record_line "c")
           (record_line "d") (record_line "e")).
  - apply streaming_delivers.
  - reflexivity.
  - vm_compute. reflexivity.
  - repeat constructor; apply noLF_spec; vm_compute; reflexivity.
  - vm_compute. reflexivity.
  - vm_compute. reflexivity.
  - vm_compute. reflexivity.
  - vm_compute. reflexivity.
  - vm_compute. reflexivity.
Defined.

(** C4, as the claim has it, fails: the second call does not carry the
    cumulative abcde. *)
Lemma C4_counterexample :
  option_map fst
    (getChatCompletion record (streaming reader_abcde) [] (ask "Hi")
       no_options)
  <> Some [lit "abcd"; lit "abcde"].
Proof. vm_compute. discriminate. Qed.

(** C5, as the code has it.  On the three lines of the scenario the
    first record's Hi stays pending (two code units, no stop), the
    second record's text joins it and the stop reason flushes both: one
    call of [onChunk], with Hi there.  The sentinel is skipped, nothing
    is left for the final flush, and the promise resolves with
    Hi there. *)
Theorem C5_scenario_gives_one_update :
  forall (env : Env) (messages : list ChatMessage)
         (options : CompletionOptions) (reader : Reader),
    delivers env messages options reader ->
    ending reader = Done ->
    decoded (reads reader) = terminated [line_Hi; line_there; DONE] ->
    getChatCompletion record env [] messages options
    = Some ([lit "Hi there"], Resolved (lit "Hi there")).
Proof.
  intros env messages options reader Hd Hend Htext.
  rewrite (completion_of_fragments record env [] messages options reader
             [line_Hi; line_there; DONE]
             [mkFragment (lit "Hi") false; mkFragment (lit " there") true;
              skipped] Hd Htext).
  - rewrite Hend. reflexivity.
  - repeat constructor; apply noLF_spec; vm_compute; reflexivity.
  - repeat constructor; vm_compute; reflexivity.
Qed.

Lemma C5_scenario_gives_one_update_witness :
  getChatCompletion record (streaming reader_scenario) [] (ask "Hi") no_options
  = Some ([lit "Hi there"], Resolved (lit "Hi there")).
Proof.
  apply (C5_scenario_gives_one_update (streaming reader_scenario)
           (ask "Hi") no_options reader_scenario).
  - apply streaming_delivers.
  - reflexivity.
  - vm_compute. reflexivity.
Defined.

(** C5, as the claim has it, fails: there are not two calls, Hi and
    then Hi there. *)
Lemma C5_counterexample :
  option_map fst
    (getChatCompletion record (streaming reader_scenario) [] (ask "Hi")
       no_options)
  <> Some [lit "Hi"; lit "Hi there"].
Proof. vm_compute. discriminate. Qed.

(** ** What the callback has received *)

Lemma assemble_calls (st : Loop (list jsstring)) (f : Fragment) :
  calls_spell_flushed st -> calls_spell_flushed (assemble record st f).
Proof.
  unfold calls_spell_flushed, assemble. intros H.
  destruct (truthy_str _); [|exact H].
  destruct (_ || _); [|exact H].
  unfold flush, record; simpl.
  now rewrite concat_app, H; simpl; rewrite app_nil_r.
Qed.

Lemma process_lines_calls (lines : list jsstring) :
  forall st st' : Loop (list jsstring),
    process_lines record st lines = Some st' ->
    calls_spell_flushed st -> calls_spell_flushed st'.
Proof.
  induction lines as [|l lines IH]; intros st st'; simpl.
  - now intros [= <-].
  - rewrite process_line_decode.
    destruct (decode_line l) as [f|]; simpl; [|discriminate].
    intros H Hst. apply (IH _ _ H). now apply assemble_calls.
Qed.

Lemma read_loop_calls (values : list (list byte))
  (st : Loop (list jsstring)) :
  read_loop record (initial []) values = Some st -> calls_spell_flushed st.
Proof.
  rewrite read_loop_decoded by (simpl; tauto).
  destruct (process_lines record (initial []) _) as [st1|] eqn:E;
    [|discriminate].
  intros [= <-]. apply (process_lines_calls _ _ _ E). reflexivity.
Qed.

Lemma finish_calls (st : Loop (list jsstring)) (calls : list jsstring)
  (full : jsstring) :
  calls_spell_flushed st ->
  finish record st = (calls, Resolved full) -> concat calls = full.
Proof.
  unfold calls_spell_flushed, finish, record. intros H.
  destruct (truthy_str _); intros [= <- <-]; [|exact H].
  now rewrite concat_app, H; simpl; rewrite app_nil_r.
Qed.

Lemma getChatCompletion_calls (env : Env) (messages : list ChatMessage)
  (options : CompletionOptions) (calls : list jsstring) (full : jsstring) :
  getChatCompletion record env [] messages options
  = Some (calls, Resolved full) ->
  concat calls = full.
Proof.
  unfold getChatCompletion.
  destruct (GROQ_API_KEY env) as [[|c key]|]; try discriminate.
  destruct (fetch env _) as [response|reason]; [|discriminate].
  destruct (negb (ok response)); [discriminate|].
  destruct (body response) as [reader|]; [|discriminate].
  unfold consume.
  destruct (read_loop record (initial []) (reads reader)) as [st|] eqn:E;
    [|discriminate].
  destruct (ending reader); [|discriminate].
  intros [= H]. apply (finish_calls st); [|exact H].
  now apply (read_loop_calls (reads reader)).
Qed.

Lemma fold_append (calls : list jsstring) :
  forall init : jsstring,
    fold_left (fun s chunk => s ++ chunk) calls init = init ++ concat calls.
Proof.
  induction calls as [|c calls IH]; intros init; simpl.
  - now rewrite app_nil_r.
  - now rewrite IH, app_assoc.
Qed.

(** ** Failures *)

(** C7, as the code has it.  When a read rejects, the rejection leaves
    the loop and the function at once and is rethrown as it is: the
    consumer has received the calls made while the earlier reads were
    processed and no other; these spell the flushed text, so the text
    still pending reaches no callback, and the rejection carries no
    text. *)
Theorem C7_read_error_is_rethrown_without_flush :
  forall (S : Type) (onChunk : jsstring -> S -> S) (s0 : S) (env : Env)
         (messages : list ChatMessage) (options : CompletionOptions)
         (reader : Reader) (reason : jsstring) (st : Loop (list jsstring)),
    delivers env messages options reader ->
    ending reader = ReadRejects reason ->
    read_loop record (initial []) (reads reader) = Some st ->
    getChatCompletion onChunk env s0 messages options
    = Some (replay onChunk (sink st) s0, Rejected (ReadRejected reason))
    /\ concat (sink st) = fullResponse st.
Proof.
  intros S onChunk s0 env messages options reader reason st Hd Hend Hloop.
  split; [|now apply (read_loop_calls (reads reader))].
  rewrite getChatCompletion_replay.
  rewrite (getChatCompletion_delivers record env [] _ _ _ Hd).
  unfold consume. now rewrite Hloop, Hend.
Qed.

Lemma C7_read_error_is_rethrown_without_flush_witness :
  getChatCompletion record (streaming reader_cut_off) [] (ask "Hi") no_options
  = Some (replay record [lit " there"] [],
          Rejected (ReadRejected (lit "network error")))
  /\ concat [lit " there"] = lit " there".
Proof.
  apply (C7_read_error_is_rethrown_without_flush (list jsstring) record []
           (streaming reader_cut_off) (ask "Hi") no_options reader_cut_off
           (lit "network error")
           (mkLoop [] (lit " there") (lit "Hi") [lit " there"])).
  - apply streaming_delivers.
  - reflexivity.
  - vm_compute. reflexivity.
Defined.

(** C7, as the claim has it, fails: the record's Hi is pending when the
    read rejects, and no call of [onChunk] is made for it. *)
Lemma C7_counterexample :
  option_map accumulatedChunks
    (read_loop record (initial [])
       [bytes_of (terminated [line_Hi])])
  = Some (lit "Hi")
  /\ getChatCompletion record
       (streaming (mkReader [bytes_of (terminated [line_Hi])]
                     (ReadRejects (lit "network error"))))
       [] (ask "Hi") no_options
     = Some ([], Rejected (ReadRejected (lit "network error"))).
Proof. split; vm_compute; reflexivity. Qed.

(** C8. When the response has a non-success status, or has no body to
    read, [getChatCompletion] rejects before anything is read: with
    [RequestFailed] in the first case and [NoResponseBody] in the
    second, the consumer left as it was, so [onChunk] was not called
    and no text exists. *)
Theorem C8_failed_response_before_any_fragment :
  forall (S : Type) (onChunk : jsstring -> S -> S) (s0 : S) (env : Env)
         (messages : list ChatMessage) (options : CompletionOptions)
         (key : jsstring) (response : Response),
    GROQ_API_KEY env = Some key -> key <> [] ->
    fetch env (request key (spread defaultOptions options) messages)
      = FetchResolves response ->
    ok response = false \/ body response = None ->
    getChatCompletion onChunk env s0 messages options
    = Some (s0, Rejected (if ok response then NoResponseBody
                          else RequestFailed (status response)
                                 (statusText response) (errorData response)))
    /\ getChatCompletion record env [] messages options
       = Some ([], Rejected (if ok response then NoResponseBody
                             else RequestFailed (status response)
                                    (statusText response)
                                    (errorData response))).
Proof.
  intros S onChunk s0 env messages options key response Hkey Hne Hfetch H.
  unfold getChatCompletion. rewrite Hkey.
  destruct key as [|c key]; [congruence|].
  rewrite Hfetch.
  destruct (ok response); simpl.
  - destruct H as [H|H]; [discriminate|]. now rewrite H.
  - split; reflexivity.
Qed.

Lemma C8_failed_response_before_any_fragment_witness :
  (getChatCompletion record (env_of response_unauthorized) [lit "before"]
     (ask "Hi") no_options
   = Some ([lit "before"],
           Rejected (RequestFailed 401 (lit "Unauthorized") None))
   /\ getChatCompletion record (env_of response_unauthorized) []
        (ask "Hi") no_options
      = Some ([], Rejected (RequestFailed 401 (lit "Unauthorized") None)))
  /\ (getChatCompletion record (env_of response_without_body) [lit "before"]
        (ask "Hi") no_options
      = Some ([lit "before"], Rejected NoResponseBody)
      /\ getChatCompletion record (env_of response_without_body) []
           (ask "Hi") no_options
         = Some ([], Rejected NoResponseBody)).
Proof.
  split.
  - apply (C8_failed_response_before_any_fragment (list jsstring) record
             [lit "before"] (env_of response_unauthorized) (ask "Hi")
             no_options a_key response_unauthorized).
    + reflexivity.
    + discriminate.
    + reflexivity.
    + left. reflexivity.
  - apply (C8_failed_response_before_any_fragment (list jsstring) record
             [lit "before"] (env_of response_without_body) (ask "Hi")
             no_options a_key response_without_body).
    + reflexivity.
    + discriminate.
    + reflexivity.
    + right. reflexivity.
Defined.

(** ** The messages sent upstream *)

Lemma matches_ci_to_lower (p c : codeunit) :
  lower_letter p -> (matches_ci p c = true <-> to_lower c = p).
Proof.
  unfold lower_letter, matches_ci, to_lower. intros [H1 H2].
  rewrite orb_true_iff, !andb_true_iff, !N.eqb_eq, !N.leb_le.
  destruct (N.leb_spec 0x41 c), (N.leb_spec c 0x5A); simpl; lia.
Qed.

Lemma startsWith_ci_begins (word : jsstring) :
  Forall lower_letter word ->
  forall s, startsWith_ci word s = true <-> begins_with_ci word s.
Proof.
  induction 1 as [|p word Hp _ IH]; intros s; simpl.
  - split; [|reflexivity]. intros _. now exists [], s.
  - destruct s as [|c s].
    + split; [discriminate|].
      intros (head & rest & Hs & Hw).
      destruct head; simpl in *; discriminate.
    + rewrite andb_true_iff, (matches_ci_to_lower p c Hp), IH. split.
      * intros [Hc (head & rest & -> & Hw)].
        exists (c :: head), rest. simpl. now rewrite Hc, Hw.
      * intros (head & rest & Hs & Hw).
        destruct head as [|h head]; simpl in *; [discriminate|].
        injection Hs as -> ->. injection Hw as Hc Hw.
        split; [exact Hc|]. now exists head, rest.
Qed.

Lemma greetingWords_lower : Forall (Forall lower_letter) greetingWords.
Proof. repeat constructor; unfold lower_letter; vm_compute; discriminate. Qed.

Lemma greeting_test_begins (s : jsstring) :
  greeting_test s = true
  <-> exists word, In word greetingWords /\ begins_with_ci word s.
Proof.
  unfold greeting_test. rewrite existsb_exists.
  pose proof greetingWords_lower as HL. rewrite Forall_forall in HL.
  split; intros (word & Hin & H); exists word; split; auto;
    now apply (startsWith_ci_begins word (HL word Hin)).
Qed.

(** C9, as the code has it.  The list sent upstream is one system
    message followed by the caller's messages in order, the content of
    every one of them trimmed, the system message included.  The system
    message's content is [Respond with a greeting.] when the caller's
    list is a single message whose content begins, letter case aside,
    with hi, hello, hey, greetings or sup, and the configured system
    prompt, trimmed, otherwise. *)
Theorem C9_system_message_then_trimmed_messages :
  forall (key : jsstring) (options : CompletionOptions)
         (messages : list ChatMessage),
    req_messages (request key (spread defaultOptions options) messages)
    = mkMessage system
        (if isGreeting messages then lit "Respond with a greeting."
         else trim (or_default (systemPrompt options) defaultSystemPrompt))
      :: map (fun m => mkMessage (role m) (trim (content m))) messages
    /\ (isGreeting messages = true
        <-> exists m word,
              messages = [m] /\ In word greetingWords
              /\ begins_with_ci word (content m)).
Proof.
  intros key options messages. split.
  - unfold request, apiMessages, systemMessage, clean; simpl.
    destruct (isGreeting messages); reflexivity.
  - unfold isGreeting. destruct messages as [|m [|m' rest]].
    + split; [discriminate|]. intros (m & word & H & _). discriminate.
    + rewrite greeting_test_begins. split.
      * intros (word & Hin & H). now exists m, word.
      * intros (m0 & word & [= <-] & Hin & H). now exists word.
    + split; [discriminate|]. intros (m0 & word & H & _). discriminate.
Qed.

(** C9, as the claim has it, fails where the configured system prompt
    has white space at an end: what is sent is the prompt trimmed, not
    the prompt. *)
Lemma C9_counterexample :
  isGreeting (ask "What is a monad?") = false
  /\ cfg_systemPrompt (spread defaultOptions options_padded)
     = lit "  Answer briefly. "
  /\ option_map content
       (hd_error (req_messages
                    (request a_key (spread defaultOptions options_padded)
                       (ask "What is a monad?"))))
     = Some (lit "Answer briefly.")
  /\ lit "Answer briefly." <> lit "  Answer briefly. ".
Proof.
  repeat split; try (vm_compute; reflexivity). vm_compute. discriminate.
Qed.

(** ** getCompletionSync *)

(** C10. On the same inputs [getCompletionSync] settles as
    [getChatCompletion] does, whatever the callback given to the
    latter: it resolves with the same string or rejects with the same
    error.  The string is the concatenation, in call order, of the
    arguments [onChunk] was called with. *)
Theorem C10_sync_returns_the_resolved_text :
  forall (S : Type) (onChunk : jsstring -> S -> S) (s0 : S) (env : Env)
         (messages : list ChatMessage) (options : CompletionOptions),
    getCompletionSync env messages options
    = option_map snd (getChatCompletion onChunk env s0 messages options)
    /\ match getChatCompletion record env [] messages options with
       | Some (calls, Resolved full) => concat calls = full
       | _ => True
       end.
Proof.
  intros S onChunk s0 env messages options.
  pose proof (getChatCompletion_calls env messages options) as Hcalls.
  unfold getCompletionSync.
  rewrite (getChatCompletion_replay onChunk),
          (getChatCompletion_replay (fun chunk result => result ++ chunk)).
  destruct (getChatCompletion record env [] messages options)
    as [[calls [full|e]]|]; simpl.
  - specialize (Hcalls calls full eq_refl). split; [|exact Hcalls].
    unfold replay. now rewrite fold_append, Hcalls.
  - split; [reflexivity | exact I].
  - split; [reflexivity | exact I].
Qed.

(** ** Further properties of [getChatCompletion] *)

(** *** Before the stream *)

(** X1. Without an API key (the variable unset or empty) the promise
    rejects with [ApiKeyNotFound] whatever [fetch] would answer, and the
    consumer is left as it was. *)
Theorem missing_api_key_rejects_first :
  forall (S : Type) (onChunk : jsstring -> S -> S) (s0 : S) (env : Env)
         (messages : list ChatMessage) (options : CompletionOptions),
    GROQ_API_KEY env = None \/ GROQ_API_KEY env = Some [] ->
    getChatCompletion onChunk env s0 messages options
    = Some (s0, Rejected ApiKeyNotFound).
Proof.
  intros S onChunk s0 env messages options [H|H];
    unfold getChatCompletion; now rewrite H.
Qed.

Lemma missing_api_key_rejects_first_witness :
  getChatCompletion record (env_without_key response_without_body)
    [lit "before"] (ask "Hi") no_options
  = Some ([lit "before"], Rejected ApiKeyNotFound).
Proof.
  apply (missing_api_key_rejects_first (list jsstring) record [lit "before"]
           (env_without_key response_without_body) (ask "Hi") no_options).
  left. reflexivity.
Defined.

(** X2. When [fetch] itself rejects, the rejection is rethrown as it is
    and the consumer is left as it was. *)
Theorem fetch_rejection_is_rethrown :
  forall (S : Type) (onChunk : jsstring -> S -> S) (s0 : S) (env : Env)
         (messages : list ChatMessage) (options : CompletionOptions)
         (key reason : jsstring),
    GROQ_API_KEY env = Some key -> key <> [] ->
    fetch env (request key (spread defaultOptions options) messages)
      = FetchRejects reason ->
    getChatCompletion onChunk env s0 messages options
    = Some (s0, Rejected (FetchRejected reason)).
Proof.
  intros S onChunk s0 env messages options key reason Hkey Hne Hfetch.
  unfold getChatCompletion. rewrite Hkey.
  destruct key as [|c key]; [congruence|]. now rewrite Hfetch.
Qed.

Lemma fetch_rejection_is_rethrown_witness :
  getChatCompletion record (env_offline (lit "Failed to fetch"))
    [lit "before"] (ask "Hi") no_options
  = Some ([lit "before"], Rejected (FetchRejected (lit "Failed to fetch"))).
Proof.
  apply (fetch_rejection_is_rethrown (list jsstring) record [lit "before"]
           (env_offline (lit "Failed to fetch")) (ask "Hi") no_options
           a_key (lit "Failed to fetch")).
  - reflexivity.
  - discriminate.
  - reflexivity.
Defined.

(** *** White space around a line *)

Lemma trimStart_snoc_ws (s : jsstring) (c : codeunit) :
  isStrWhiteSpaceChar c = true ->
  trimStart (s ++ [c])
  = match trimStart s with [] => [] | _ :: _ => trimStart s ++ [c] end.
Proof.
  intros Hc. induction s as [|x s IH]; simpl.
  - now rewrite Hc.
  - destruct (isStrWhiteSpaceChar x); [exact IH | reflexivity].
Qed.

Lemma trimEnd_snoc_ws (s : jsstring) (c : codeunit) :
  isStrWhiteSpaceChar c = true -> trimEnd (s ++ [c]) = trimEnd s.
Proof.
  intros Hc. unfold trimEnd. rewrite rev_app_distr. simpl. now rewrite Hc.
Qed.

Lemma trim_snoc_ws (s : jsstring) (c : codeunit) :
  isStrWhiteSpaceChar c = true -> trim (s ++ [c]) = trim s.
Proof.
  intros Hc. unfold trim. rewrite (trimStart_snoc_ws s c Hc).
  destruct (trimStart s) as [|x t]; [reflexivity|].
  now apply trimEnd_snoc_ws.
Qed.

Lemma decode_line_CR (line : jsstring) :
  decode_line (line ++ [CR]) = decode_line line.
Proof. unfold decode_line. now rewrite trim_snoc_ws. Qed.

(** *** Streams that give the same result *)

Lemma terminated_crlf_terminated (lines : list jsstring) :
  terminated_crlf lines = terminated (map (fun l => l ++ [CR]) lines).
Proof.
  unfold terminated_crlf, terminated. rewrite map_map. f_equal.
  apply map_ext. intros l. now rewrite <- app_assoc.
Qed.

Lemma decoded_ascii (values : list (list byte)) :
  Forall ascii_bytes values ->
  decoded values = map Byte.to_N (concat values).
Proof.
  induction 1 as [|v values Hv _ IH]; [reflexivity|].
  unfold decoded in *. cbn [map concat].
  now rewrite IH, (TextDecoder_decode_ascii v Hv), map_app.
Qed.

Section SameResult.

Context {S : Type} (onChunk : jsstring -> S -> S).

Lemma process_lines_same_fragments (lines lines' : list jsstring) :
  Forall2 (fun l l' => decode_line l = decode_line l') lines lines' ->
  forall st : Loop S,
    process_lines onChunk st lines = process_lines onChunk st lines'.
Proof.
  induction 1 as [|l l' lines lines' Hl _ IH]; intros st; simpl;
    [reflexivity|].
  rewrite !process_line_decode, Hl.
  destruct (decode_line l') as [f|]; simpl; [apply IH | reflexivity].
Qed.

Lemma process_lines_without_text (lines : list jsstring) :
  forall st : Loop S,
    process_lines onChunk st lines
    = process_lines onChunk st
        (filter (fun l => negb (without_text l)) lines).
Proof.
  induction lines as [|l lines IH]; intros st; simpl; [reflexivity|].
  unfold without_text at 1. rewrite process_line_decode.
  destruct (decode_line l) as [f|] eqn:E; simpl.
  - destruct (truthy_str (frag_text f)) eqn:T; simpl.
    + rewrite process_line_decode, E. simpl. apply IH.
    + unfold assemble. rewrite T. apply IH.
  - now rewrite process_line_decode, E.
Qed.

(** The result is a function of the text decoded from the reads and of
    the reader's end. *)
Lemma same_text_same_result (env env' : Env) (s0 : S)
  (messages messages' : list ChatMessage)
  (options options' : CompletionOptions) (reader reader' : Reader) :
  delivers env messages options reader ->
  delivers env' messages' options' reader' ->
  ending reader = ending reader' ->
  fst (cut (decoded (reads reader))) = fst (cut (decoded (reads reader'))) ->
  getChatCompletion onChunk env s0 messages options
  = getChatCompletion onChunk env' s0 messages' options'.
Proof.
  intros Hd Hd' He Ht.
  rewrite (getChatCompletion_delivers onChunk env s0 _ _ _ Hd),
          (getChatCompletion_delivers onChunk env' s0 _ _ _ Hd').
  now rewrite !consume_decoded, He, Ht.
Qed.

End SameResult.

(** X3. What follows the last line feed of the stream is never
    processed: when the reader is done, a stream that ends with a
    partial line gives the result of the stream without it.  A last
    record that is not followed by a line feed is lost. *)
Theorem text_after_last_line_feed_is_ignored :
  forall (S : Type) (onChunk : jsstring -> S -> S) (s0 : S)
         (env env' : Env) (messages messages' : list ChatMessage)
         (options options' : CompletionOptions) (reader reader' : Reader)
         (lines : list jsstring) (tail : jsstring),
    delivers env messages options reader ->
    delivers env' messages' options' reader' ->
    ending reader = ending reader' ->
    ~ In LF tail ->
    decoded (reads reader) = terminated lines ++ tail ->
    decoded (reads reader') = terminated lines ->
    getChatCompletion onChunk env s0 messages options
    = getChatCompletion onChunk env' s0 messages' options'.
Proof.
  intros S onChunk s0 env env' messages messages' options options'
         reader reader' lines tail Hd Hd' He Htail Ht Ht'.
  apply (same_text_same_result onChunk env env' s0 _ _ _ _ _ _ Hd Hd' He).
  rewrite Ht, Ht', cut_app, cut_terminated_rest. simpl.
  rewrite (cut_noLF tail Htail). simpl. now rewrite app_nil_r.
Qed.

Lemma text_after_last_line_feed_is_ignored_witness :
  getChatCompletion record
    (streaming (mkReader [bytes_of (terminated [line_Hi] ++ line_there)] Done))
    [] (ask "Hi") no_options
  = getChatCompletion record
      (streaming (mkReader [bytes_of (terminated [line_Hi])] Done))
      [] (ask "Hi") no_options.
Proof.
  apply (text_after_last_line_feed_is_ignored (list jsstring) record []
           (streaming (mkReader
                         [bytes_of (terminated [line_Hi] ++ line_there)] Done))
           (streaming (mkReader [bytes_of (terminated [line_Hi])] Done))
           (ask "Hi") (ask "Hi") no_options no_options
           (mkReader [bytes_of (terminated [line_Hi] ++ line_there)] Done)
           (mkReader [bytes_of (terminated [line_Hi])] Done)
           [line_Hi] line_there).
  - apply streaming_delivers.
  - apply streaming_delivers.
  - reflexivity.
  - apply noLF_spec. vm_compute. reflexivity.
  - vm_compute. reflexivity.
  - vm_compute. reflexivity.
Defined.

(** X4. Lines that end with carriage return and line feed give the
    result of the same lines ending with a line feed alone: the
    carriage return is trimmed away with the rest of the white space
    around a line. *)
Theorem carriage_returns_are_immaterial :
  forall (S : Type) (onChunk : jsstring -> S -> S) (s0 : S)
         (env env' : Env) (messages messages' : list ChatMessage)
         (options options' : CompletionOptions) (reader reader' : Reader)
         (lines : list jsstring),
    delivers env messages options reader ->
    delivers env' messages' options' reader' ->
    ending reader = ending reader' ->
    Forall (fun l => ~ In LF l) lines ->
    decoded (reads reader) = terminated_crlf lines ->
    decoded (reads reader') = terminated lines ->
    getChatCompletion onChunk env s0 messages options
    = getChatCompletion onChunk env' s0 messages' options'.
Proof.
  intros S onChunk s0 env env' messages messages' options options'
         reader reader' lines Hd Hd' He Hl Ht Ht'.
  rewrite (getChatCompletion_delivers onChunk env s0 _ _ _ Hd),
          (getChatCompletion_delivers onChunk env' s0 _ _ _ Hd').
  rewrite !consume_decoded, He, Ht, Ht', terminated_crlf_terminated.
  rewrite <- (app_nil_r (terminated (map _ lines))),
          <- (app_nil_r (terminated lines)).
  rewrite (cut_terminated lines [] Hl), cut_terminated.
  - simpl. rewrite !app_nil_r.
    rewrite (process_lines_same_fragments onChunk
               (map (fun l => l ++ [CR]) lines) lines); [reflexivity|].
    clear. induction lines as [|l lines IH]; simpl; constructor;
      [apply decode_line_CR | exact IH].
  - rewrite Forall_map. eapply Forall_impl; [|exact Hl].
    intros l Hn Hin. apply in_app_or in Hin as [Hin|[Hin|[]]];
      [exact (Hn Hin) | discriminate].
Qed.

Lemma carriage_returns_are_immaterial_witness :
  getChatCompletion record
    (streaming (mkReader [bytes_of (terminated_crlf [line_Hi; line_there])]
                  Done))
    [] (ask "Hi") no_options
  = getChatCompletion record
      (streaming (mkReader [bytes_of (terminated [line_Hi; line_there])] Done))
      [] (ask "Hi") no_options.
Proof.
  apply (carriage_returns_are_immaterial (list jsstring) record []
           (streaming (mkReader
                         [bytes_of (terminated_crlf [line_Hi; line_there])]
                         Done))
           (streaming (mkReader [bytes_of (terminated [line_Hi; line_there])]
                         Done))
           (ask "Hi") (ask "Hi") no_options no_options
           (mkReader [bytes_of (terminated_crlf [line_Hi; line_there])] Done)
           (mkReader [bytes_of (terminated [line_Hi; line_there])] Done)
           [line_Hi; line_there]).
  - apply streaming_delivers.
  - apply streaming_delivers.
  - reflexivity.
  - repeat constructor; apply noLF_spec; vm_compute; reflexivity.
  - vm_compute. reflexivity.
  - vm_compute. reflexivity.
Defined.

(** X5. Lines from which no text is taken (blank lines, the sentinel,
    malformed lines, records without content) can be dropped from the
    stream, or added to it, anywhere: the result is that of the
    remaining lines.  The blank line that separates two events of an
    event stream is such a line. *)
Theorem lines_without_text_are_immaterial :
  forall (S : Type) (onChunk : jsstring -> S -> S) (s0 : S)
         (env env' : Env) (messages messages' : list ChatMessage)
         (options options' : CompletionOptions) (reader reader' : Reader)
         (lines : list jsstring),
    delivers env messages options reader ->
    delivers env' messages' options' reader' ->
    ending reader = ending reader' ->
    Forall (fun l => ~ In LF l) lines ->
    decoded (reads reader) = terminated lines ->
    decoded (reads reader')
    = terminated (filter (fun l => negb (without_text l)) lines) ->
    getChatCompletion onChunk env s0 messages options
    = getChatCompletion onChunk env' s0 messages' options'.
Proof.
  intros S onChunk s0 env env' messages messages' options options'
         reader reader' lines Hd Hd' He Hl Ht Ht'.
  rewrite (getChatCompletion_delivers onChunk env s0 _ _ _ Hd),
          (getChatCompletion_delivers onChunk env' s0 _ _ _ Hd').
  rewrite !consume_decoded, He, Ht, Ht'.
  rewrite <- (app_nil_r (terminated (filter _ lines))),
          <- (app_nil_r (terminated lines)).
  rewrite (cut_terminated lines [] Hl), cut_terminated.
  - simpl. rewrite !app_nil_r.
    now rewrite (process_lines_without_text onChunk lines).
  - rewrite Forall_forall in *. intros l Hin.
    apply filter_In in Hin. now apply Hl.
Qed.

Lemma lines_without_text_are_immaterial_witness :
  getChatCompletion record
    (streaming (mkReader
                  [bytes_of (terminated [line_Hi; []; line_broken; lit "  ";
                                         line_there; []; DONE; []])] Done))
    [] (ask "Hi") no_options
  = getChatCompletion record
      (streaming (mkReader [bytes_of (terminated [line_Hi; line_there])] Done))
      [] (ask "Hi") no_options.
Proof.
  apply (lines_without_text_are_immaterial (list jsstring) record []
           (streaming (mkReader
                         [bytes_of (terminated [line_Hi; []; line_broken;
                                                lit "  "; line_there; [];
                                                DONE; []])] Done))
           (streaming (mkReader [bytes_of (terminated [line_Hi; line_there])]
                         Done))
           (ask "Hi") (ask "Hi") no_options no_options
           (mkReader [bytes_of (terminated [line_Hi; []; line_broken;
                                            lit "  "; line_there; []; DONE;
                                            []])] Done)
           (mkReader [bytes_of (terminated [line_Hi; line_there])] Done)
           [line_Hi; []; line_broken; lit "  "; line_there; []; DONE; []]).
  - apply streaming_delivers.
  - apply streaming_delivers.
  - reflexivity.
  - repeat constructor; apply noLF_spec; vm_compute; reflexivity.
  - vm_compute. reflexivity.
  - vm_compute. reflexivity.
Defined.

(** X6. On streams of ASCII bytes the way the bytes are cut into reads
    does not matter: two readers whose reads concatenate to the same
    bytes give the same result. *)
Theorem ascii_chunking_is_immaterial :
  forall (S : Type) (onChunk : jsstring -> S -> S) (s0 : S)
         (env env' : Env) (messages messages' : list ChatMessage)
         (options options' : CompletionOptions) (reader reader' : Reader),
    delivers env messages options reader ->
    delivers env' messages' options' reader' ->
    ending reader = ending reader' ->
    Forall ascii_bytes (reads reader) ->
    Forall ascii_bytes (reads reader') ->
    concat (reads reader) = concat (reads reader') ->
    getChatCompletion onChunk env s0 messages options
    = getChatCompletion onChunk env' s0 messages' options'.
Proof.
  intros S onChunk s0 env env' messages messages' options options'
         reader reader' Hd Hd' He Ha Ha' Hc.
  apply (same_text_same_result onChunk env env' s0 _ _ _ _ _ _ Hd Hd' He).
  now rewrite (decoded_ascii _ Ha), (decoded_ascii _ Ha'), Hc.
Qed.

Lemma ascii_bytes_by_computation (bs : list byte) :
  forallb (fun b => Byte.to_N b <=? 0x7F) bs = true -> ascii_bytes bs.
Proof.
  unfold ascii_bytes. rewrite forallb_forall, Forall_forall.
  intros H b Hin. apply N.leb_le. now apply H.
Qed.

Lemma all_ascii_by_computation (values : list (list byte)) :
  forallb (forallb (fun b => Byte.to_N b <=? 0x7F)) values = true ->
  Forall ascii_bytes values.
Proof.
  rewrite forallb_forall, Forall_forall. intros H bs Hin.
  apply ascii_bytes_by_computation. now apply H.
Qed.

Lemma ascii_chunking_is_immaterial_witness :
  getChatCompletion record
    (streaming (mkReader [bytes_of line_Hi;
                          bytes_of ([LF] ++ line_there ++ [LF])] Done))
    [] (ask "Hi") no_options
  = getChatCompletion record
      (streaming (mkReader
                    (one_by_one (bytes_of (terminated [line_Hi; line_there])))
                    Done))
      [] (ask "Hi") no_options.
Proof.
  apply (ascii_chunking_is_immaterial (list jsstring) record []
           (streaming (mkReader [bytes_of line_Hi;
                                 bytes_of ([LF] ++ line_there ++ [LF])] Done))
           (streaming (mkReader
                         (one_by_one
                            (bytes_of (terminated [line_Hi; line_there])))
                         Done))
           (ask "Hi") (ask "Hi") no_options no_options
           (mkReader [bytes_of line_Hi;
                      bytes_of ([LF] ++ line_there ++ [LF])] Done)
           (mkReader
              (one_by_one (bytes_of (terminated [line_Hi; line_there])))
              Done)).
  - apply streaming_delivers.
  - apply streaming_delivers.
  - reflexivity.
  - apply all_ascii_by_computation. vm_compute. reflexivity.
  - apply all_ascii_by_computation. vm_compute. reflexivity.
  - vm_compute. reflexivity.
Defined.

(** *** What the loop keeps true *)

Section Invariants.

Context {S : Type} (onChunk : jsstring -> S -> S).

Variable P : Loop S -> Prop.
Hypothesis P_assemble : forall st f, P st -> P (assemble onChunk st f).
Hypothesis P_buffer : forall b st, P st -> P (with_buffer b st).

Lemma process_lines_keeps (lines : list jsstring) :
  forall st st' : Loop S,
    process_lines onChunk st lines = Some st' -> P st -> P st'.
Proof.
  induction lines as [|l lines IH]; intros st st'; simpl.
  - now intros [= <-].
  - rewrite process_line_decode.
    destruct (decode_line l) as [f|]; simpl; [|discriminate].
    intros H Hst. apply (IH _ _ H). now apply P_assemble.
Qed.

Lemma read_value_keeps (value : list byte) (st st' : Loop S) :
  read_value onChunk st value = Some st' -> P st -> P st'.
Proof.
  rewrite read_value_cut. intros H Hst.
  apply (process_lines_keeps _ _ _ H). now apply P_buffer.
Qed.

Lemma read_loop_keeps (values : list (list byte)) :
  forall st st' : Loop S,
    read_loop onChunk st values = Some st' -> P st -> P st'.
Proof.
  induction values as [|v values IH]; intros st st'; simpl.
  - now intros [= <-].
  - destruct (read_value onChunk st v) as [st1|] eqn:E; [|discriminate].
    intros H Hst. apply (IH _ _ H). now apply (read_value_keeps v st).
Qed.

Lemma fold_assemble_keeps (frags : list Fragment) :
  forall st : Loop S, P st -> P (fold_left (assemble onChunk) frags st).
Proof.
  induction frags as [|f frags IH]; intros st Hst; simpl; [exact Hst|].
  apply IH. now apply P_assemble.
Qed.

End Invariants.

Lemma read_loop_app {S : Type} (onChunk : jsstring -> S -> S)
  (values more : list (list byte)) :
  forall st : Loop S,
    read_loop onChunk st (values ++ more)
    = match read_loop onChunk st values with
      | Some st' => read_loop onChunk st' more
      | None => None
      end.
Proof.
  induction values as [|v values IH]; intros st; simpl; [reflexivity|].
  destruct (read_value onChunk st v); [apply IH | reflexivity].
Qed.


Lemma str_length_lt_4 (s : jsstring) :
  (4 <=? str_length s) = false <-> (List.length s < 4)%nat.
Proof. unfold str_length. rewrite N.leb_gt. lia. Qed.

Lemma assemble_pending_is_short {S : Type} (onChunk : jsstring -> S -> S)
  (st : Loop S) (f : Fragment) :
  pending_is_short st -> pending_is_short (assemble onChunk st f).
Proof.
  unfold pending_is_short, assemble. intros H.
  destruct (truthy_str _); [|exact H].
  destruct (4 <=? _) eqn:E; simpl; [lia|].
  apply str_length_lt_4 in E.
  destruct (frag_stop f); simpl; [lia | exact E].
Qed.



Lemma extends_refl (st : Loop (list jsstring)) : extends st st.
Proof.
  repeat split; exists []; now rewrite app_nil_r.
Qed.

Lemma extends_trans (a b c : Loop (list jsstring)) :
  extends a b -> extends b c -> extends a c.
Proof.
  intros ([x Hx] & [y Hy] & [z Hz]) ([x' Hx'] & [y' Hy'] & [z' Hz']).
  repeat split.
  - exists (x ++ x'). now rewrite Hx', Hx, app_assoc.
  - exists (y ++ y'). now rewrite Hy', Hy, app_assoc.
  - exists (z ++ z'). now rewrite Hz', Hz, app_assoc.
Qed.

Lemma assemble_extends (st : Loop (list jsstring)) (f : Fragment) :
  extends st (assemble record st f).
Proof.
  unfold assemble.
  destruct (truthy_str _); [|apply extends_refl].
  destruct (_ || _); unfold extends, is_prefix, assembled, flush, record;
    simpl; repeat split.
  - now eexists.
  - now eexists.
  - exists (frag_text f). now rewrite app_nil_r, app_assoc.
  - exists []. now rewrite app_nil_r.
  - exists []. now rewrite app_nil_r.
  - exists (frag_text f). now rewrite app_assoc.
Qed.

(** X7. As more of the stream is read, nothing that was delivered or
    accumulated is taken back: the calls made so far stay the first
    calls, and the text flushed and the text assembled so far stay the
    beginning of the later text. *)
Theorem flushed_text_only_grows :
  forall (values more : list (list byte)) (st st' : Loop (list jsstring)),
    read_loop record (initial []) values = Some st ->
    read_loop record (initial []) (values ++ more) = Some st' ->
    (exists calls, sink st' = sink st ++ calls)
    /\ is_prefix (fullResponse st) (fullResponse st')
    /\ is_prefix (assembled st) (assembled st').
Proof.
  intros values more st st' H H'.
  rewrite read_loop_app, H in H'.
  change (extends st st').
  apply (read_loop_keeps record (extends st)) with (3 := H').
  - intros s f Hs. apply (extends_trans st s); [exact Hs|].
    apply assemble_extends.
  - intros b s Hs. exact Hs.
  - apply extends_refl.
Qed.

Lemma flushed_text_only_grows_witness :
  (exists calls, [lit " there"; lit "Hi there"] = [lit " there"] ++ calls)
  /\ is_prefix (lit " there") (lit " thereHi there")
  /\ is_prefix (lit " thereHi") (lit " thereHi there").
Proof.
  apply (flushed_text_only_grows
           [bytes_of (terminated [line_there; line_Hi])]
           [bytes_of (terminated [line_there])]
           (mkLoop [] (lit " there") (lit "Hi") [lit " there"])
           (mkLoop [] (lit " thereHi there") [] [lit " there"; lit "Hi there"])).
  - vm_compute. reflexivity.
  - vm_compute. reflexivity.
Defined.


Section Tail.

Context {S : Type} (onChunk : jsstring -> S -> S).

(** As [completion_of_fragments], with a partial line at the end. *)
Lemma completion_of_fragments_tail (env : Env) (s0 : S)
  (messages : list ChatMessage) (options : CompletionOptions)
  (reader : Reader) (lines : list jsstring) (tail : jsstring)
  (frags : list Fragment) :
  delivers env messages options reader ->
  decoded (reads reader) = terminated lines ++ tail ->
  ~ In LF tail ->
  Forall (fun l => ~ In LF l) lines ->
  Forall2 (fun l f => decode_line l = Some f) lines frags ->
  getChatCompletion onChunk env s0 messages options
  = Some (settle onChunk (ending reader)
            (fold_left (assemble onChunk) frags (initial s0))).
Proof.
  intros Hd Htext Htail Hlines Hfrags.
  rewrite (getChatCompletion_delivers onChunk env s0 _ _ _ Hd).
  rewrite consume_decoded, Htext, (cut_terminated lines tail Hlines).
  rewrite (cut_noLF tail Htail). simpl. rewrite app_nil_r.
  now rewrite (process_lines_fragments onChunk lines frags Hfrags).
Qed.

End Tail.

Lemma fold_assemble_calls (frags : list Fragment) (st : Loop (list jsstring)) :
  calls_spell_flushed st ->
  calls_spell_flushed (fold_left (assemble record) frags st).
Proof.
  apply (fold_assemble_keeps record calls_spell_flushed).
  intros s f. apply assemble_calls.
Qed.

(** X9. A read that rejects costs fewer than four code units of text:
    of the text of the complete lines read before the rejection,
    everything but a pending end of at most three code units has been
    passed to [onChunk]. *)
Theorem read_error_loses_less_than_four :
  forall (env : Env) (messages : list ChatMessage)
         (options : CompletionOptions) (reader : Reader) (reason : jsstring)
         (lines : list jsstring) (tail : jsstring) (frags : list Fragment),
    delivers env messages options reader ->
    ending reader = ReadRejects reason ->
    decoded (reads reader) = terminated lines ++ tail ->
    ~ In LF tail ->
    Forall (fun l => ~ In LF l) lines ->
    Forall2 (fun l f => decode_line l = Some f) lines frags ->
    exists calls pending,
      getChatCompletion record env [] messages options
      = Some (calls, Rejected (ReadRejected reason))
      /\ concat (map frag_text frags) = concat calls ++ pending
      /\ (List.length pending < 4)%nat.
Proof.
  intros env messages options reader reason lines tail frags
         Hd Hend Htext Htail Hlines Hfrags.
  rewrite (completion_of_fragments_tail record env [] messages options reader
             lines tail frags Hd Htext Htail Hlines Hfrags), Hend.
  set (st := fold_left (assemble record) frags (initial [])).
  exists (sink st), (accumulatedChunks st). split; [reflexivity|]. split.
  - assert (H : calls_spell_flushed st)
      by (now apply fold_assemble_calls).
    unfold calls_spell_flushed in H. rewrite H.
    change (concat (map frag_text frags)
            = assembled (fold_left (assemble record) frags (initial []))).
    now rewrite fold_assemble_assembled.
  - apply (fold_assemble_keeps record pending_is_short).
    + intros s f. apply assemble_pending_is_short.
    + unfold pending_is_short. simpl. lia.
Qed.

Lemma read_error_loses_less_than_four_witness :
  exists calls pending,
    getChatCompletion record (streaming reader_cut_off) [] (ask "Hi")
      no_options
    = Some (calls, Rejected (ReadRejected (lit "network error")))
    /\ concat (map frag_text [mkFragment (lit " there") true;
                               mkFragment (lit "Hi") false])
       = concat calls ++ pending
    /\ (List.length pending < 4)%nat.
Proof.
  apply (read_error_loses_less_than_four (streaming reader_cut_off)
           (ask "Hi") no_options reader_cut_off (lit "network error")
           [line_there; line_Hi] []
           [mkFragment (lit " there") true; mkFragment (lit "Hi") false]).
  - apply streaming_delivers.
  - reflexivity.
  - vm_compute. reflexivity.
  - intros [].
  - repeat constructor; apply noLF_spec; vm_compute; reflexivity.
  - repeat constructor; vm_compute; reflexivity.
Defined.




(** *** The messages of the request *)

Lemma trimStart_head (s : jsstring) :
  match trimStart s with
  | c :: _ => isStrWhiteSpaceChar c = false
  | [] => True
  end.
Proof.
  induction s as [|x s IH]; simpl; [exact I|].
  destruct (isStrWhiteSpaceChar x) eqn:E; [exact IH | exact E].
Qed.

Lemma trimStart_snoc_other (s : jsstring) (c : codeunit) :
  isStrWhiteSpaceChar c = false -> trimStart (s ++ [c]) = trimStart s ++ [c].
Proof.
  intros Hc. induction s as [|x s IH]; simpl.
  - now rewrite Hc.
  - destruct (isStrWhiteSpaceChar x); [exact IH | reflexivity].
Qed.

Lemma trim_clean_edges (s : jsstring) : clean_edges (trim s).
Proof.
  unfold clean_edges, trim, trimEnd. split.
  - pose proof (trimStart_head s) as H.
    destruct (trimStart s) as [|h t]; [exact I|].
    simpl rev. rewrite (trimStart_snoc_other _ h H), rev_app_distr.
    exact H.
  - rewrite rev_involutive. apply trimStart_head.
Qed.

(** X11. The request carries one message more than the caller gave,
    the system message first and then the caller's messages with their
    roles in order, and no content in it begins or ends with a white
    space character. *)
Theorem request_messages_are_trimmed :
  forall (key : jsstring) (options : CompletionOptions)
         (messages : list ChatMessage),
    map role (req_messages (request key (spread defaultOptions options)
                              messages))
    = system :: map role messages
    /\ Forall (fun m => clean_edges (content m))
         (req_messages (request key (spread defaultOptions options)
                          messages)).
Proof.
  intros key options messages. unfold request, apiMessages; simpl. split.
  - f_equal. rewrite map_map. reflexivity.
  - constructor; [apply trim_clean_edges|].
    rewrite Forall_map. apply Forall_forall. intros m _.
    apply trim_clean_edges.
Qed.

(** ** The chat store *)

(** *** Cleaning *)

Lemma lf_runs_ok_sound (a : jsstring) :
  forall (s b : jsstring) (n : nat),
    lf_runs_ok n s = true -> s <> a ++ [LF; LF; LF] ++ b.
Proof.
  induction a as [|x a IH]; intros s b n H E; subst s; simpl in H.
  - destruct n as [|[|n]]; simpl in H; discriminate.
  - destruct (x =? LF).
    + apply andb_true_iff in H as [_ H]. now apply (IH _ b _ H).
    + now apply (IH _ b _ H).
Qed.

Lemma lf_runs_ok_write_run (run : nat) (c : codeunit) (rest : jsstring) :
  (c =? LF) = false ->
  lf_runs_ok O (ChatStore.write_run run ++ c :: rest) = lf_runs_ok O rest.
Proof.
  intros Hc. unfold ChatStore.write_run.
  destruct run as [|[|[|run]]]; simpl; now rewrite Hc.
Qed.

Lemma replace_newlines_ok (s : jsstring) :
  forall run, lf_runs_ok O (ChatStore.replace_newlines run s) = true.
Proof.
  induction s as [|c s IH]; intros run; simpl.
  - unfold ChatStore.write_run. now destruct run as [|[|[|run]]].
  - destruct (c =? LF) eqn:E; [apply IH|].
    rewrite (lf_runs_ok_write_run run c _ E). apply IH.
Qed.

Lemma trimStart_suffix (s : jsstring) : exists a, s = a ++ trimStart s.
Proof.
  induction s as [|x s [a IH]]; simpl; [now exists []|].
  destruct (isStrWhiteSpaceChar x); [|now exists []].
  exists (x :: a). simpl. now rewrite <- IH.
Qed.

Lemma trimEnd_prefix (s : jsstring) : exists b, s = trimEnd s ++ b.
Proof.
  unfold trimEnd. destruct (trimStart_suffix (rev s)) as [a H].
  exists (rev a). rewrite <- rev_app_distr, <- H. now rewrite rev_involutive.
Qed.

Lemma trim_infix (s : jsstring) : exists a b, s = a ++ trim s ++ b.
Proof.
  unfold trim. destruct (trimStart_suffix s) as [a Ha].
  destruct (trimEnd_prefix (trimStart s)) as [b Hb].
  exists a, b. now rewrite <- Hb.
Qed.

Lemma trim_has_no_blank_block (s : jsstring) :
  has_no_blank_block s -> has_no_blank_block (trim s).
Proof.
  intros H x y E. destruct (trim_infix s) as (a & b & Hs).
  apply (H (a ++ x) (y ++ b)). rewrite Hs, E.
  now rewrite <- !app_assoc.
Qed.

(** X12. What the store shows is tidy: the content [updateMessage]
    writes neither begins nor ends with white space and has no three
    line feeds in a row, and each chunk is stripped of the white space
    at its two ends before it is joined to the response text. *)
Theorem cleaned_text_is_tidy :
  forall text : jsstring,
    clean_edges (ChatStore.cleanContent text)
    /\ has_no_blank_block (ChatStore.cleanContent text)
    /\ clean_edges (ChatStore.cleanChunk text).
Proof.
  intros text. repeat split; try apply trim_clean_edges.
  apply trim_has_no_blank_block. intros a b.
  apply (lf_runs_ok_sound a _ b O). apply replace_newlines_ok.
Qed.

(** *** Updating *)

Lemma updated_twice (target text text' : jsstring)
  (msg : ChatStore.ChatMessage) :
  ChatStore.updated target text' (ChatStore.updated target text msg)
  = ChatStore.updated target text' msg.
Proof.
  unfold ChatStore.updated.
  destruct (str_eqb (ChatStore.id msg) target
            && ChatStore.role_eqb (ChatStore.role msg) assistant) eqn:E;
    simpl; now rewrite E.
Qed.

Lemma updateMessage_twice (target text text' : jsstring)
  (st : ChatStore.ChatState) :
  ChatStore.updateMessage target text'
    (ChatStore.updateMessage target text st)
  = ChatStore.updateMessage target text' st.
Proof.
  unfold ChatStore.updateMessage; simpl. f_equal.
  rewrite map_map. apply map_ext. intros msg. apply updated_twice.
Qed.

(** X13. [updateMessage] keeps the number, the order, the ids, the
    roles and the time stamps of the messages and the loading flag; it
    changes the content of a message only if the message has the given
    id and the role assistant, and then to the cleaned text. *)
Theorem updateMessage_changes_only_its_target :
  forall (target text : jsstring) (st : ChatStore.ChatState),
    ChatStore.isLoading (ChatStore.updateMessage target text st)
    = ChatStore.isLoading st
    /\ Forall2
         (fun old new =>
            ChatStore.id new = ChatStore.id old
            /\ ChatStore.role new = ChatStore.role old
            /\ ChatStore.timestamp new = ChatStore.timestamp old
            /\ ChatStore.content new
               = if str_eqb (ChatStore.id old) target
                    && ChatStore.role_eqb (ChatStore.role old) assistant
                 then ChatStore.cleanContent text
                 else ChatStore.content old)
         (ChatStore.messages st)
         (ChatStore.messages (ChatStore.updateMessage target text st)).
Proof.
  intros target text st. split; [reflexivity|].
  unfold ChatStore.updateMessage; simpl.
  induction (ChatStore.messages st) as [|msg rest IH]; simpl; constructor;
    [|exact IH].
  unfold ChatStore.updated.
  destruct (str_eqb (ChatStore.id msg) target
            && ChatStore.role_eqb (ChatStore.role msg) assistant);
    repeat split; reflexivity.
Qed.

(** *** Sending *)

Lemma replay_onChunk (target : jsstring) (calls : list jsstring) :
  forall (responseText : jsstring) (st : ChatStore.ChatState),
    replay (ChatStore.onChunk target) calls (responseText, st)
    = (responseText ++ concat (map ChatStore.cleanChunk calls),
       match calls with
       | [] => st
       | _ :: _ =>
           ChatStore.updateMessage target
             (responseText ++ concat (map ChatStore.cleanChunk calls)) st
       end).
Proof.
  unfold replay.
  induction calls as [|c calls IH]; intros responseText st; simpl.
  - now rewrite app_nil_r.
  - unfold ChatStore.onChunk at 2. simpl. rewrite IH.
    rewrite <- app_assoc. f_equal.
    destruct calls as [|c' calls]; simpl.
    + now rewrite !app_nil_r.
    + now rewrite updateMessage_twice.
Qed.

(** [sendMessage] by the calls and the outcome of the completion it
    asks for. *)
Lemma sendMessage_run (env : Env) (rnd : ChatStore.Entropy)
  (text : jsstring) (st : ChatStore.ChatState) :
  ChatStore.sendMessage env rnd text st
  = match getChatCompletion record env []
            (ChatStore.groqMessages (ChatStore.randomUUID rnd 1)
               (ChatStore.mkState (ChatStore.messages st) true))
            (mkOptions None None None None) with
    | None => None
    | Some (calls, Resolved _) =>
        Some (ChatStore.mkState (shown_messages rnd text st calls) false)
    | Some (calls, Rejected _) =>
        Some (ChatStore.mkState
                (shown_messages rnd text st calls ++ [apology_message rnd])
                false)
    end.
Proof.
  unfold ChatStore.sendMessage. cbn [ChatStore.addMessage].
  rewrite (getChatCompletion_replay
             (ChatStore.onChunk (ChatStore.randomUUID rnd 1))).
  destruct (getChatCompletion record env [] _ _) as [[calls out]|];
    [|reflexivity].
  unfold replayed. cbn [option_map fst snd]. rewrite replay_onChunk.
  cbn [app]. unfold shown_messages, sent_messages, apology_message.
  destruct calls as [|c calls], out as [full|e]; simpl;
    rewrite <- ?app_assoc; reflexivity.
Qed.

Lemma updated_user (target text : jsstring) (uuid body : jsstring) (now : N) :
  ChatStore.updated target text (ChatStore.mkChatMessage uuid user body now)
  = ChatStore.mkChatMessage uuid user body now.
Proof.
  unfold ChatStore.updated; simpl. now rewrite andb_false_r.
Qed.

Lemma updated_other (target text : jsstring) (msg : ChatStore.ChatMessage) :
  ChatStore.id msg <> target -> ChatStore.updated target text msg = msg.
Proof.
  intros H. unfold ChatStore.updated.
  destruct (str_eqb (ChatStore.id msg) target) eqn:E; [|reflexivity].
  apply str_eqb_eq in E. contradiction.
Qed.

(** The messages shown are those before the call, the user's message
    and the reply, the first and the last possibly updated; none of
    this but the user's message depends on the text sent. *)
Lemma shown_messages_shape (rnd : ChatStore.Entropy) (text : jsstring)
  (st : ChatStore.ChatState) (calls : list jsstring) :
  shown_messages rnd text st calls
  = match calls with
    | [] => ChatStore.messages st
    | _ :: _ =>
        map (ChatStore.updated (ChatStore.randomUUID rnd 1)
               (concat (map ChatStore.cleanChunk calls)))
          (ChatStore.messages st)
    end
    ++ [user_message rnd text;
        reply_message rnd
          (ChatStore.cleanContent (concat (map ChatStore.cleanChunk calls)))].
Proof.
  unfold shown_messages, sent_messages, user_message, reply_message.
  destruct calls as [|c calls]; [reflexivity|].
  rewrite map_app. cbn [map]. rewrite updated_user.
  unfold ChatStore.updated at 2. cbn [ChatStore.id ChatStore.role].
  now rewrite str_eqb_refl.
Qed.

(** X14. The completion [sendMessage] asks for is made from the
    messages the store held before the call: the text just sent is not
    part of the request, and everything the store holds afterwards,
    the user's message apart, is the same whatever that text was. *)
Theorem sendMessage_reply_ignores_the_text_sent :
  forall (env : Env) (rnd : ChatStore.Entropy) (text text' : jsstring)
         (st st1 st2 : ChatStore.ChatState),
    ChatStore.sendMessage env rnd text st = Some st1 ->
    ChatStore.sendMessage env rnd text' st = Some st2 ->
    exists before after,
      ChatStore.messages st1 = before ++ user_message rnd text :: after
      /\ ChatStore.messages st2 = before ++ user_message rnd text' :: after
      /\ List.length before = List.length (ChatStore.messages st).
Proof.
  intros env rnd text text' st st1 st2. rewrite !sendMessage_run.
  destruct (getChatCompletion record env [] _ _) as [[calls out]|];
    [|discriminate].
  rewrite !shown_messages_shape.
  set (before := match calls with
                 | [] => ChatStore.messages st
                 | _ :: _ => map _ (ChatStore.messages st)
                 end).
  assert (Hlen : List.length before = List.length (ChatStore.messages st))
    by (unfold before; destruct calls; [reflexivity | apply length_map]).
  set (reply := reply_message rnd
                  (ChatStore.cleanContent
                     (concat (map ChatStore.cleanChunk calls)))).
  destruct out as [full|e]; intros [= <-] [= <-]; simpl.
  - exists before, [reply]. split; [reflexivity|]. split; [reflexivity|].
    exact Hlen.
  - exists before, [reply; apology_message rnd]. rewrite <- !app_assoc.
    split; [reflexivity|]. split; [reflexivity|]. exact Hlen.
Qed.

Lemma sendMessage_reply_ignores_the_text_sent_witness :
  exists before after,
    earlier_messages
    ++ [user_message some_entropy (lit "And a functor?");
        reply_message some_entropy (lit "Hi there")]
    = before ++ user_message some_entropy (lit "And a functor?") :: after
    /\ earlier_messages
       ++ [user_message some_entropy (lit "Tell me a joke.");
           reply_message some_entropy (lit "Hi there")]
       = before ++ user_message some_entropy (lit "Tell me a joke.") :: after
    /\ List.length before = List.length earlier_messages.
Proof.
  apply (sendMessage_reply_ignores_the_text_sent (streaming reader_scenario)
           some_entropy (lit "And a functor?") (lit "Tell me a joke.")
           earlier_store
           (ChatStore.mkState
              (earlier_messages
               ++ [user_message some_entropy (lit "And a functor?");
                   reply_message some_entropy (lit "Hi there")]) false)
           (ChatStore.mkState
              (earlier_messages
               ++ [user_message some_entropy (lit "Tell me a joke.");
                   reply_message some_entropy (lit "Hi there")]) false)).
  - vm_compute. reflexivity.
  - vm_compute. reflexivity.
Defined.

(** X15. When the completion rejects, for whatever reason,
    [sendMessage] ends with the loading flag off and the apology as the
    last message, after the user's message and the reply message, which
    both stay. *)
Theorem sendMessage_apologises_on_failure :
  forall (env : Env) (rnd : ChatStore.Entropy) (text : jsstring)
         (st : ChatStore.ChatState) (calls : list jsstring) (e : Error),
    completion_asked env rnd st = Some (calls, Rejected e) ->
    exists before partial,
      ChatStore.sendMessage env rnd text st
      = Some (ChatStore.mkState
                (before ++ [user_message rnd text;
                            reply_message rnd partial;
                            apology_message rnd]) false)
      /\ List.length before = List.length (ChatStore.messages st).
Proof.
  intros env rnd text st calls e H. unfold completion_asked in H.
  rewrite sendMessage_run, H, shown_messages_shape.
  eexists. eexists. split.
  - rewrite <- app_assoc. reflexivity.
  - destruct calls; [reflexivity | apply length_map].
Qed.

Lemma sendMessage_apologises_on_failure_witness :
  exists before partial,
    ChatStore.sendMessage (env_without_key response_without_body)
      some_entropy (lit "And a functor?") earlier_store
    = Some (ChatStore.mkState
              (before ++ [user_message some_entropy (lit "And a functor?");
                          reply_message some_entropy partial;
                          apology_message some_entropy]) false)
    /\ List.length before = List.length (ChatStore.messages earlier_store).
Proof.
  apply (sendMessage_apologises_on_failure
           (env_without_key response_without_body) some_entropy
           (lit "And a functor?") earlier_store [] ApiKeyNotFound).
  vm_compute. reflexivity.
Defined.

(** X16. When the completion resolves and the id drawn for the reply
    is new to the store, [sendMessage] leaves the earlier messages as
    they were and adds two: the user's message and the reply, whose
    content is the cleaned concatenation of the chunks, each cleaned on
    its own first; the loading flag is off.  The chunks themselves
    concatenate to the resolved text. *)
Theorem sendMessage_shows_the_cleaned_chunks :
  forall (env : Env) (rnd : ChatStore.Entropy) (text : jsstring)
         (st : ChatStore.ChatState) (calls : list jsstring) (full : jsstring),
    Forall (fun m => ChatStore.id m <> ChatStore.randomUUID rnd 1)
      (ChatStore.messages st) ->
    completion_asked env rnd st = Some (calls, Resolved full) ->
    ChatStore.sendMessage env rnd text st
    = Some (ChatStore.mkState
              (ChatStore.messages st
               ++ [user_message rnd text;
                   reply_message rnd
                     (ChatStore.cleanContent
                        (concat (map ChatStore.cleanChunk calls)))]) false)
    /\ concat calls = full.
Proof.
  intros env rnd text st calls full Hfresh H. unfold completion_asked in H.
  split; [|exact (getChatCompletion_calls env _ _ calls full H)].
  rewrite sendMessage_run, H, shown_messages_shape.
  destruct calls as [|c calls]; [reflexivity|].
  do 3 f_equal. rewrite <- (map_id (ChatStore.messages st)) at 2.
  apply map_ext_in. intros m Hin. apply updated_other.
  rewrite Forall_forall in Hfresh. now apply Hfresh.
Qed.

Lemma sendMessage_shows_the_cleaned_chunks_witness :
  ChatStore.sendMessage (streaming reader_two_chunks) some_entropy
    (lit "And a functor?") earlier_store
  = Some (ChatStore.mkState
            (ChatStore.messages earlier_store
             ++ [user_message some_entropy (lit "And a functor?");
                 reply_message some_entropy
                   (ChatStore.cleanContent
                      (concat (map ChatStore.cleanChunk
                                 [lit "Well, "; lit "yes."])))]) false)
  /\ concat [lit "Well, "; lit "yes."] = lit "Well, yes.".
Proof.
  apply (sendMessage_shows_the_cleaned_chunks (streaming reader_two_chunks)
           some_entropy (lit "And a functor?") earlier_store
           [lit "Well, "; lit "yes."] (lit "Well, yes.")).
  - repeat constructor; vm_compute; discriminate.
  - vm_compute. reflexivity.
Defined.
